(** * Dining philosophers (node.js): event log, forks, philosophers, conductor
    and the trace analyzer of the test-suite.

    Shallow embedding of [philosophers.js] and of [analyzeLog] from
    [philosophers.test.js].

    Conventions.
    - JavaScript numbers that the program uses as identities, indices, counters
      and millisecond values are integers: they are modelled in [Z].  The
      remainder operator [%] is the truncating one ([Z.rem]) and yields NaN for
      a zero divisor.
    - Module-level variables of [philosophers.js] are the fields of [Globals];
      every function that reads or writes them takes and returns a [Globals].
    - [Date.now()] and [Math.random()] are services of the JavaScript host.
      They are the methods of the class [Host]: the k-th call of [Date.now()]
      returns [Date_now k]; [Globals] counts the calls made so far.
    - An [async] function is a state machine.  A state is a suspension point
      ([await]); a turn runs the code from one suspension point to the next
      and is an ordinary function on the shared state.  Between two turns the
      other tasks run: the drivers below take that interference as an
      argument.
    - [console.log] output is not part of the model. *)

From stdpp Require Import base numbers list strings pretty gmap sets.
From stdpp Require Import sorting.

Local Open Scope string_scope.
Local Open Scope Z_scope.
Local Open Scope list_scope.

(** ** JavaScript values *)

(** Numbers: an integer or NaN. *)
Inductive jsnum : Type :=
  | Num (z : Z)
  | NaN.

Global Instance jsnum_eq_dec : EqDecision jsnum.
Proof. solve_decision. Defined.

(** Values that reach [startRun] and [setAlgorithm]. *)
Inductive jsval : Type :=
  | JUndefined
  | JNull
  | JBool (b : bool)
  | JNumber (x : jsnum)
  | JStr (s : string).

Global Instance jsval_eq_dec : EqDecision jsval.
Proof. solve_decision. Defined.

(** ToBoolean: [undefined], [null], [false], [0], [NaN] and the empty string
    are falsy. *)
Definition truthy (v : jsval) : bool :=
  match v with
  | JUndefined | JNull | JNumber NaN => false
  | JBool b => b
  | JNumber (Num z) => negb (Z.eqb z 0)
  | JStr s => negb (String.eqb s "")
  end.

(** [a || b] *)
Definition js_or (a b : jsval) : jsval := if truthy a then a else b.

(** [a % b] on integers: truncated remainder, NaN when [b] is zero. *)
Definition js_rem (a b : Z) : jsnum :=
  if decide (b = 0) then NaN else Num (Z.rem a b).

(** A number inside a template literal. *)
Definition show_num (x : jsnum) : string :=
  match x with
  | Num z => pretty z
  | NaN => "NaN"
  end.

(** [array[x]] reads a slot only when [x] is an integer in range; every
    other read is [undefined]. *)
Definition js_slot {A} (array : list A) (x : jsnum) : option nat :=
  match x with
  | Num z =>
      if decide (0 ≤ z ∧ z < Z.of_nat (length array)) then Some (Z.to_nat z)
      else None
  | NaN => None
  end.

(** ** The host: clock and random source *)

Class Host : Type := {
  (** result of the k-th call of [Date.now()] *)
  Date_now : nat → Z;
  (** result of [Math.random().toString(36).slice(2, 8)] at the k-th call of
      [Math.random()] *)
  Math_random_base36 : nat → string
}.

(** ** Event log *)

Record Entry : Type := mkEntry {
  runId : option string;      (* null until the first startRun *)
  algorithm : jsval;
  t : Z;
  phil : Z;
  event : string;
  forks : list jsnum
}.

Record Globals : Type := mkGlobals {
  eventLog : list Entry;
  startTime : Z;
  currentAlgorithm : jsval;
  currentRunId : option string;
  clock_reads : nat;          (* calls of Date.now() so far *)
  random_draws : nat          (* calls of Math.random() so far *)
}.

Section EventLog.
Context `{Host}.

(** State of the module right after it is loaded:
    [eventLog = []], [startTime = Date.now()], [currentAlgorithm = 'unknown'],
    [currentRunId = null]. *)
Definition module_init : Globals :=
  {| eventLog := [];
     startTime := Date_now 0;
     currentAlgorithm := JStr "unknown";
     currentRunId := None;
     clock_reads := 1;
     random_draws := 0 |}.

Definition setAlgorithm (name : jsval) (g : Globals) : Globals :=
  {| eventLog := eventLog g;
     startTime := startTime g;
     currentAlgorithm := name;
     currentRunId := currentRunId g;
     clock_reads := clock_reads g;
     random_draws := random_draws g |}.

Definition generateShortId (g : Globals) : string * Globals :=
  (Math_random_base36 (random_draws g),
   {| eventLog := eventLog g;
      startTime := startTime g;
      currentAlgorithm := currentAlgorithm g;
      currentRunId := currentRunId g;
      clock_reads := clock_reads g;
      random_draws := S (random_draws g) |}).

Definition startRun (algorithm : jsval) (g : Globals) : string * Globals :=
  let alg := js_or algorithm (currentAlgorithm g) in
  let '(rid, g1) := generateShortId g in
  (rid,
   {| eventLog := eventLog g1;
      startTime := Date_now (clock_reads g1);
      currentAlgorithm := alg;
      currentRunId := Some rid;
      clock_reads := S (clock_reads g1);
      random_draws := random_draws g1 |}).

Definition log (philId : Z) (event : string) (forks : list jsnum) (g : Globals)
  : Globals :=
  let entry :=
    {| runId := currentRunId g;
       algorithm := currentAlgorithm g;
       t := Date_now (clock_reads g) - startTime g;
       phil := philId;
       event := event;
       forks := forks |} in
  {| eventLog := eventLog g ++ [entry];
     startTime := startTime g;
     currentAlgorithm := currentAlgorithm g;
     currentRunId := currentRunId g;
     clock_reads := S (clock_reads g);
     random_draws := random_draws g |}.

Definition getEventLog (g : Globals) : list Entry := eventLog g.

(** [eventLog.length = 0] *)
Definition clearEventLog (g : Globals) : Globals :=
  {| eventLog := [];
     startTime := startTime g;
     currentAlgorithm := currentAlgorithm g;
     currentRunId := currentRunId g;
     clock_reads := clock_reads g;
     random_draws := random_draws g |}.
End EventLog.

(** ** Turns of asynchronous functions *)

(** What a task is waiting for when it is suspended. *)
Inductive Wait : Type :=
  | Timer (ms : Z)   (* await delay(ms) *)
  | Settled.         (* await of a promise that is already fulfilled *)

(** Errors thrown by the program or by the engine. *)
Inductive Error : Type :=
  | OwnershipError (message : string)   (* new Error(message) *)
  | TypeError                           (* method call on undefined *)
  | RangeError.                         (* invalid array length *)

(** How a call of a synchronous function ends.  What the function wrote
    before it threw stays written: a function returns the state together with
    its completion. *)
Inductive Completion : Type :=
  | Normal
  | Throw (e : Error).

(** Result of one turn of an async function whose suspension points are the
    values of [S]. *)
Inductive Turn (S : Type) : Type :=
  | Returned
  | Awaiting (w : Wait) (s : S)
  | Thrown (e : Error).
Arguments Returned {S}.
Arguments Awaiting {S} w s.
Arguments Thrown {S} e.

(** ** class Fork *)

Module Fork.
Record obj : Type := mk {
  id : Z;
  state : Z;               (* 0 = free, 1 = taken *)
  holder : option Z        (* null or the identity of the holder *)
}.

Definition new (id : Z) : obj := {| id := id; state := 0; holder := None |}.

Definition maxWait : Z := 1000.

(** How a holder is printed inside a template literal. *)
Definition show_holder (h : option Z) : string :=
  match h with
  | None => "null"
  | Some p => pretty p
  end.

Definition release_message (requesterId : Z) (h : option Z) : string :=
  "Philosopher " +:+ pretty requesterId +:+
  " cannot release fork held by " +:+ show_holder h.

Section Methods.
Context `{Host}.

(** One pass of the body of [while (true)], entered with the current
    value of [waitTime]: either the fork is taken and the function
    returns, or the function suspends at [await delay(waitTime)].  The
    suspension point remembers [waitTime]. *)
Definition acquire_check (requesterId : Z) (forks : list jsnum) (waitTime : Z)
    (this : obj) (g : Globals) : obj * Globals * Turn Z :=
  if decide (state this = 0) then
    ({| id := id this; state := 1; holder := Some requesterId |},
     log requesterId "ACQUIRE" forks g,
     Returned)
  else
    (this, g, Awaiting (Timer waitTime) waitTime).

(** The call [this.acquire(requesterId, forks)] up to its first
    suspension or its return. *)
Definition acquire (requesterId : Z) (forks : list jsnum)
    (this : obj) (g : Globals) : obj * Globals * Turn Z :=
  let g1 := log requesterId "TRY" forks g in
  acquire_check requesterId forks 1 this g1.

(** Resumption after [await delay(waitTime)]:
    [waitTime = Math.min(waitTime * 2, maxWait)], then the loop again. *)
Definition acquire_resume (requesterId : Z) (forks : list jsnum) (waitTime : Z)
    (this : obj) (g : Globals) : obj * Globals * Turn Z :=
  acquire_check requesterId forks (Z.min (waitTime * 2) maxWait) this g.

Definition release (requesterId : Z) (forks : list jsnum)
    (this : obj) (g : Globals) : obj * Globals * Completion :=
  if decide (holder this ≠ Some requesterId) then
    (this, g,
     Throw (OwnershipError (release_message requesterId (holder this))))
  else
    ({| id := id this; state := 0; holder := None |},
     log requesterId "RELEASE" forks g,
     Normal).
End Methods.
End Fork.

(** ** Running a task among others *)

Section Drive.
Context {W S : Type}.

(** [resume s w]: the turn that starts at suspension point [s]. *)
Variable resume : S → W → W * Turn S.

(** [drive others (w, r)] runs a task whose last turn ended in [(w, r)].
    While the task is suspended the other tasks change the shared state:
    [others] lists what they do during each successive suspension.  The
    result is the list of the waits of the task, the last state and how the
    last turn ended ([Awaiting]: still suspended when [others] ran out). *)
Fixpoint drive (others : list (W → W)) (now : W * Turn S)
  : list Wait * (W * Turn S) :=
  match now with
  | (w, Awaiting wt s) =>
      match others with
      | [] => ([wt], now)
      | o :: others' =>
          let '(waits, final) := drive others' (resume s (o w)) in
          (wt :: waits, final)
      end
  | _ => ([], now)
  end.

(** [delta w w']: what a turn that leads from [w] to [w'] has written. *)
Context {E : Type}.
Variable delta : W → W → list E.

(** Everything the turns of the task write during [drive others now]. *)
Fixpoint written (others : list (W → W)) (now : W * Turn S) : list E :=
  match now with
  | (w, Awaiting _ s) =>
      match others with
      | [] => []
      | o :: others' =>
          let now' := resume s (o w) in
          delta (o w) now'.1 ++ written others' now'
      end
  | _ => []
  end.
End Drive.

(** [fork.acquire(requesterId, forks)] run to the end of a schedule. *)
Definition acquire_drive `{Host} (requesterId : Z) (forks : list jsnum)
    (others : list (Fork.obj * Globals → Fork.obj * Globals))
    (this : Fork.obj) (g : Globals)
  : list Wait * (Fork.obj * Globals * Turn Z) :=
  drive (λ waitTime fg, Fork.acquire_resume requesterId forks waitTime fg.1 fg.2)
        others (Fork.acquire requesterId forks this g).

(** ** class Conductor *)

Module Conductor.
Record obj : Type := mk {
  seats : Z;
  waiting : list jsval
}.

Definition new (maxSeats : Z) : obj := {| seats := maxSeats; waiting := [] |}.

(** [async requestSeat() { }]: the body is empty; the call returns at once
    and has no suspension point. *)
Definition requestSeat (this : obj) : obj * Turn Empty_set := (this, Returned).

(** [leaveSeat() { }] *)
Definition leaveSeat (this : obj) : obj := this.
End Conductor.

(** ** class Philosopher *)

(** The array of forks shared by the philosophers, and the module variables. *)
Record World : Type := mkWorld {
  table : list Fork.obj;
  globals : Globals
}.

Module Philosopher.
(** [this.forks] is the shared array [table] of the world. *)
Record obj : Type := mk {
  id : Z;
  f1 : jsnum;              (* left fork *)
  f2 : jsnum               (* right fork *)
}.

Definition new (id : Z) (forks : list Fork.obj) : obj :=
  {| id := id;
     f1 := js_rem id (Z.of_nat (length forks));
     f2 := js_rem (id + 1) (Z.of_nat (length forks)) |}.

(** Suspension points of [startNaive]; [i] is the loop counter. *)
Inductive NaivePoint : Type :=
  | AcquiringFirst (i waitTime : Z)   (* in forks[f1].acquire, at delay(waitTime) *)
  | AcquiredFirst (i : Z)             (* await of forks[f1].acquire(..), fulfilled *)
  | AcquiringSecond (i waitTime : Z)  (* in forks[f2].acquire, at delay(waitTime) *)
  | AcquiredSecond (i : Z)            (* await of forks[f2].acquire(..), fulfilled *)
  | Eating (i : Z).                   (* await delay(1) between EAT_START and EAT_END *)

Section Methods.
Context `{Host}.

Definition log (this : obj) (event : string) (g : Globals) : Globals :=
  log (id this) event [f1 this; f2 this] g.

(** [forks[x].m(..)] for a method [m] of [Fork] that may suspend.
    [forks[x]] is [undefined] when [x] is not a slot: the call throws. *)
Definition call_fork (x : jsnum)
    (m : Fork.obj → Globals → Fork.obj * Globals * Turn Z) (w : World)
  : World * Turn Z :=
  match js_slot (table w) x with
  | None => (w, Thrown TypeError)
  | Some k =>
      match table w !! k with
      | None => (w, Thrown TypeError)
      | Some fork =>
          let '(fork', g', r) := m fork (globals w) in
          ({| table := <[k := fork']> (table w); globals := g' |}, r)
      end
  end.

(** [forks[x].release(requesterId, forks)] *)
Definition call_release (x : jsnum) (requesterId : Z) (forks : list jsnum)
    (w : World) : World * Completion :=
  match js_slot (table w) x with
  | None => (w, Throw TypeError)
  | Some k =>
      match table w !! k with
      | None => (w, Throw TypeError)
      | Some fork =>
          let '(fork', g', c) :=
            Fork.release requesterId forks fork (globals w) in
          ({| table := <[k := fork']> (table w); globals := g' |}, c)
      end
  end.

(** [await forks[f1].acquire(..)] from the turn [m] of the call on. *)
Definition first_fork (this : obj) (i : Z)
    (m : Fork.obj → Globals → Fork.obj * Globals * Turn Z) (w : World)
  : World * Turn NaivePoint :=
  match call_fork (f1 this) m w with
  | (w', Returned) => (w', Awaiting Settled (AcquiredFirst i))
  | (w', Awaiting wt waitTime) => (w', Awaiting wt (AcquiringFirst i waitTime))
  | (w', Thrown e) => (w', Thrown e)
  end.

(** [await forks[f2].acquire(..)] from the turn [m] of the call on. *)
Definition second_fork (this : obj) (i : Z)
    (m : Fork.obj → Globals → Fork.obj * Globals * Turn Z) (w : World)
  : World * Turn NaivePoint :=
  match call_fork (f2 this) m w with
  | (w', Returned) => (w', Awaiting Settled (AcquiredSecond i))
  | (w', Awaiting wt waitTime) => (w', Awaiting wt (AcquiringSecond i waitTime))
  | (w', Thrown e) => (w', Thrown e)
  end.

(** The loop test [i < count] and the start of the body. *)
Definition naive_loop (this : obj) (count i : Z) (w : World)
  : World * Turn NaivePoint :=
  if decide (i < count) then
    first_fork this i (Fork.acquire (id this) [f1 this; f2 this]) w
  else (w, Returned).

Definition naive_resume (this : obj) (count : Z) (at_ : NaivePoint)
    (w : World) : World * Turn NaivePoint :=
  let fs := [f1 this; f2 this] in
  match at_ with
  | AcquiringFirst i waitTime =>
      first_fork this i (Fork.acquire_resume (id this) fs waitTime) w
  | AcquiredFirst i =>
      second_fork this i (Fork.acquire (id this) fs) w
  | AcquiringSecond i waitTime =>
      second_fork this i (Fork.acquire_resume (id this) fs waitTime) w
  | AcquiredSecond i =>
      ({| table := table w; globals := log this "EAT_START" (globals w) |},
       Awaiting (Timer 1) (Eating i))
  | Eating i =>
      let w1 := {| table := table w;
                   globals := log this "EAT_END" (globals w) |} in
      match call_release (f1 this) (id this) fs w1 with
      | (w2, Throw e) => (w2, Thrown e)
      | (w2, Normal) =>
          match call_release (f2 this) (id this) fs w2 with
          | (w3, Throw e) => (w3, Thrown e)
          | (w3, Normal) => naive_loop this count (i + 1) w3
          end
      end
  end.

(** [startNaive(count)] up to its first suspension. *)
Definition startNaive (this : obj) (count : Z) (w : World)
  : World * Turn NaivePoint :=
  naive_loop this count 0 w.
End Methods.

(** [async startAsym(count)]: three constant declarations and no statement
    after them.  The call returns at once. *)
Definition startAsym (this : obj) (count : Z) (w : World)
  : World * Turn Empty_set :=
  (w, Returned).

(** [async startConductor(count, conductor)]: the same. *)
Definition startConductor (this : obj) (count : Z) (conductor : Conductor.obj)
    (w : World) : World * Conductor.obj * Turn Empty_set :=
  (w, conductor, Returned).

(** [async startSimultaneous(count)]: the same. *)
Definition startSimultaneous (this : obj) (count : Z) (w : World)
  : World * Turn Empty_set :=
  (w, Returned).
End Philosopher.

(** ** analyzeLog (philosophers.test.js) *)

Record Report : Type := mkReport {
  index : nat;
  error : string
}.

(** [mealsPerPhilosopher] is a JavaScript array: a map from property keys to
    values.  A key that is absent reads as [undefined]; writing to any key
    creates it, also beyond the length and below zero. *)
Record Results : Type := mkResults {
  mealsPerPhilosopher : gmap Z jsnum;
  sequenceErrors : list Report;
  mutualExclusionViolations : list Report;
  currentlyEating : gset Z
}.

(** [Array(n).fill(0)] *)
Definition zeros (n : Z) : gmap Z jsnum :=
  gset_to_gmap (Num 0) (list_to_set (seqZ 0 n)).

(** [array[k]++] on numbers and holes: [undefined + 1] is NaN. *)
Definition increment (array : gmap Z jsnum) (k : Z) : gmap Z jsnum :=
  let next := match array !! k with
              | Some (Num v) => Num (v + 1)
              | Some NaN | None => NaN
              end in
  <[k := next]> array.

(** [set.has(x)] for a set that holds integers. *)
Definition has (set : gset Z) (x : jsnum) : bool :=
  match x with
  | Num z => bool_decide (z ∈ set)
  | NaN => false
  end.

Definition neighbor_message (phil : Z) (neighbor : jsnum) : string :=
  "Philosopher " +:+ pretty phil +:+ " started eating while neighbor " +:+
  show_num neighbor +:+ " is eating".

Definition sequence_message (phil : Z) : string :=
  "Philosopher " +:+ pretty phil +:+ " ended eating but was not eating".

(** The body of the [for] loop at index [i]. *)
Definition analyze_entry (n : Z) (i : nat) (entry : Entry) (results : Results)
  : Results :=
  let phil := phil entry in
  if String.eqb (event entry) "EAT_START" then
    let leftNeighbor := js_rem (phil - 1 + n) n in
    let rightNeighbor := js_rem (phil + 1) n in
    let v1 :=
      if has (currentlyEating results) leftNeighbor then
        mutualExclusionViolations results ++
          [{| index := i; error := neighbor_message phil leftNeighbor |}]
      else mutualExclusionViolations results in
    let v2 :=
      if has (currentlyEating results) rightNeighbor then
        v1 ++ [{| index := i; error := neighbor_message phil rightNeighbor |}]
      else v1 in
    {| mealsPerPhilosopher := mealsPerPhilosopher results;
       sequenceErrors := sequenceErrors results;
       mutualExclusionViolations := v2;
       currentlyEating := {[phil]} ∪ currentlyEating results |}
  else if String.eqb (event entry) "EAT_END" then
    let errs :=
      if negb (has (currentlyEating results) (Num phil)) then
        sequenceErrors results ++
          [{| index := i; error := sequence_message phil |}]
      else sequenceErrors results in
    {| mealsPerPhilosopher := increment (mealsPerPhilosopher results) phil;
       sequenceErrors := errs;
       mutualExclusionViolations := mutualExclusionViolations results;
       currentlyEating := currentlyEating results ∖ {[phil]} |}
  else
    (* 'TRY', 'ACQUIRE', 'RELEASE', 'TIMEOUT' break; no other case matches *)
    results.

(** The [for] loop from index [i] over the rest of the log. *)
Fixpoint analyze_from (n : Z) (i : nat) (log : list Entry) (results : Results)
  : Results :=
  match log with
  | [] => results
  | entry :: rest => analyze_from n (S i) rest (analyze_entry n i entry results)
  end.

(** [Array(n)] throws a RangeError unless [0 <= n < 2^32]. *)
Definition analyzeLog (log : list Entry) (n : Z) : Error + Results :=
  if decide (0 ≤ n ∧ n < 2 ^ 32) then
    inr (analyze_from n 0 log
           {| mealsPerPhilosopher := zeros n;
              sequenceErrors := [];
              mutualExclusionViolations := [];
              currentlyEating := ∅ |})
  else inl RangeError.

(** ** Runs of [startNaive] *)

(** The entries that a turn from [before] to [after] has appended. *)
Definition appended (before after : World) : list Entry :=
  drop (length (eventLog (globals before))) (eventLog (globals after)).

(** [startNaive(count)] run to the end of a schedule. *)
Definition naive_run `{Host} (this : Philosopher.obj) (count : Z)
    (others : list (World → World)) (w : World)
  : list Wait * (World * Turn Philosopher.NaivePoint) :=
  drive (Philosopher.naive_resume this count) others
        (Philosopher.startNaive this count w).

(** The entries that the call itself has appended during that run. *)
Definition naive_written `{Host} (this : Philosopher.obj) (count : Z)
    (others : list (World → World)) (w : World) : list Entry :=
  appended w (Philosopher.startNaive this count w).1 ++
  written (Philosopher.naive_resume this count) appended others
          (Philosopher.startNaive this count w).

(** One eat cycle of [startNaive], as the events it logs. *)
Definition naive_cycle : list string :=
  ["TRY"; "ACQUIRE"; "TRY"; "ACQUIRE"; "EAT_START"; "EAT_END";
   "RELEASE"; "RELEASE"].

(** ** Sequences of calls of the logging interface *)

Inductive Call : Type :=
  | CallStartRun (algorithm : jsval)
  | CallSetAlgorithm (name : jsval)
  | CallLog (philId : Z) (event : string) (forks : list jsnum)
  | CallClearEventLog.

Definition call `{Host} (c : Call) (g : Globals) : Globals :=
  match c with
  | CallStartRun algorithm => (startRun algorithm g).2
  | CallSetAlgorithm name => setAlgorithm name g
  | CallLog philId event forks => log philId event forks g
  | CallClearEventLog => clearEventLog g
  end.

Definition calls `{Host} (cs : list Call) (g : Globals) : Globals :=
  foldl (λ g c, call c g) g cs.

Definition is_startRun (c : Call) : bool :=
  match c with
  | CallStartRun _ => true
  | _ => false
  end.

(** The label in force after [cs] when it was [label] before and [cs] holds
    no call of [startRun]. *)
Definition relabel (cs : list Call) (label : jsval) : jsval :=
  foldl (λ l c, match c with CallSetAlgorithm name => name | _ => l end)
        label cs.

(** ** The invariant of a fork *)

Definition fork_inv (fork : Fork.obj) : Prop :=
  Fork.state fork = 1 ↔ Fork.holder fork ≠ None.

(** ** Notions used in the statements *)

(** The value of the variable [waitTime] after [k] passes through
    [waitTime = Math.min(waitTime * 2, maxWait)]. *)
Definition waitTime_after (k : nat) : Z :=
  Nat.iter k (λ waitTime, Z.min (waitTime * 2) Fork.maxWait) 1.

Global Arguments waitTime_after : simpl never.

(** Number of EAT_END entries of actor [j] in a log. *)
Definition meals_of (j : Z) (log : list Entry) : Z :=
  Z.of_nat (length (filter (λ e, event e = "EAT_END" ∧ phil e = j) log)).

(** [k] eat cycles, as the events they log. *)
Definition cycles (k : Z) : list string :=
  concat (replicate (Z.to_nat k) naive_cycle).

(** What [startNaive(count)] still logs from a suspension point on when no
    call throws. *)
Definition remaining (count : Z) (at_ : Philosopher.NaivePoint) : list string :=
  match at_ with
  | Philosopher.AcquiringFirst i _ =>
      drop 1 naive_cycle ++ cycles (count - i - 1)
  | Philosopher.AcquiredFirst i =>
      drop 2 naive_cycle ++ cycles (count - i - 1)
  | Philosopher.AcquiringSecond i _ =>
      drop 3 naive_cycle ++ cycles (count - i - 1)
  | Philosopher.AcquiredSecond i =>
      drop 4 naive_cycle ++ cycles (count - i - 1)
  | Philosopher.Eating i =>
      drop 5 naive_cycle ++ cycles (count - i - 1)
  end.

(** A step from [w] to [w'] appends entries of actor [r] about the forks
    [fs]; their events are [evs]. *)
Definition writes (r : Z) (fs : list jsnum) (w w' : World) (evs : list string)
  : Prop :=
  ∃ new, eventLog (globals w') = eventLog (globals w) ++ new ∧
         event <$> new = evs ∧
         Forall (λ e, phil e = r ∧ forks e = fs) new.

(** A turn of [startNaive] from [w] that has [todo] left to log: it logs a
    prefix of [todo] and stops where the rest is what remains. *)
Definition turn_ok (count : Z) (r : Z) (fs : list jsnum) (todo : list string)
    (w : World) (res : World * Turn Philosopher.NaivePoint) : Prop :=
  match res.2 with
  | Returned => writes r fs w res.1 todo
  | Awaiting _ s => ∃ evs, writes r fs w res.1 evs ∧ evs ++ remaining count s = todo
  | Thrown _ => True
  end.

(** Five free forks and a freshly loaded module. *)
Definition five_forks : list Fork.obj := Fork.new <$> [0; 1; 2; 3; 4].

Definition fresh_world `{Host} : World :=
  {| table := five_forks; globals := module_init |}.

(** A host for the examples: the clock advances by 5 ms per reading. *)
Definition sample_host : Host :=
  {| Date_now := λ k, 1000 + 5 * Z.of_nat k;
     Math_random_base36 := λ k, "k3x9a" +:+ pretty k |}.

(** ** Several philosophers at one table *)


(** [Array.from({ length: n }, (_, i) => new Fork(i))] *)
Definition make_forks (n : nat) : list Fork.obj :=
  (λ i : nat, Fork.new (Z.of_nat i)) <$> seq 0 n.

(** [Array.from({ length: n }, (_, i) => new Philosopher(i, forks))] *)
Definition make_philosophers (n : nat) (forks : list Fork.obj)
  : list Philosopher.obj :=
  (λ i : nat, Philosopher.new (Z.of_nat i) forks) <$> seq 0 n.

(** The shared state and, for every call of [startNaive] made so far, the
    philosopher and how its last turn ended. *)
Record System : Type := mkSystem {
  world : World;
  tasks : list (Philosopher.obj * Turn Philosopher.NaivePoint)
}.

(** [ps.map(p => p.startNaive(count))]: the calls are made one after the
    other and each runs up to its first suspension. *)
Definition launch `{Host} (count : Z) (ps : list Philosopher.obj) (sys : System)
  : System :=
  foldl (λ sys p,
           let '(w', r) := Philosopher.startNaive p count (world sys) in
           {| world := w'; tasks := tasks sys ++ [(p, r)] |})
        sys ps.

(** The event loop resumes the [k]-th call; a call that is not suspended has
    nothing to resume. *)
Definition resume_task `{Host} (count : Z) (k : nat) (sys : System) : System :=
  match tasks sys !! k with
  | Some (p, Awaiting _ s) =>
      let '(w', r) := Philosopher.naive_resume p count s (world sys) in
      {| world := w'; tasks := <[k := (p, r)]> (tasks sys) |}
  | _ => sys
  end.

(** The calls are resumed in the order of [schedule].  Every order is
    allowed: the order in which timers and promises wake the calls is one of
    them. *)
Definition run_schedule `{Host} (count : Z) (schedule : list nat) (sys : System)
  : System :=
  foldl (λ sys k, resume_task count k sys) sys schedule.


(** [Promise.all] of the calls is fulfilled when every call has returned. *)
Definition all_returned (sys : System) : Prop :=
  Forall (λ task, task.2 = Returned) (tasks sys).

(** The fork [forks[x]] exists and its holder is [r]. *)
Definition holds (tb : list Fork.obj) (x : jsnum) (r : Z) : Prop :=
  ∃ k fork, js_slot tb x = Some k ∧ tb !! k = Some fork ∧
            Fork.holder fork = Some r.

(** The forks that a call of [startNaive] has acquired and not yet released
    when it is suspended at a point. *)
Definition in_hand (p : Philosopher.obj) (st : Turn Philosopher.NaivePoint)
  : list jsnum :=
  match st with
  | Awaiting _ (Philosopher.AcquiredFirst _)
  | Awaiting _ (Philosopher.AcquiringSecond _ _) => [Philosopher.f1 p]
  | Awaiting _ (Philosopher.AcquiredSecond _)
  | Awaiting _ (Philosopher.Eating _) => [Philosopher.f1 p; Philosopher.f2 p]
  | _ => []
  end.

(** Between EAT_START and EAT_END. *)
Definition is_eating (st : Turn Philosopher.NaivePoint) : bool :=
  match st with
  | Awaiting _ (Philosopher.Eating _) => true
  | _ => false
  end.

(** Suspended before the second fork is taken. *)
Definition before_second (st : Turn Philosopher.NaivePoint) : bool :=
  match st with
  | Awaiting _ (Philosopher.AcquiringFirst _ _)
  | Awaiting _ (Philosopher.AcquiredFirst _)
  | Awaiting _ (Philosopher.AcquiringSecond _ _) => true
  | _ => false
  end.

(** What [acquire] and [release] called by [r] can do to one fork. *)
Inductive fork_step (r : Z) : Fork.obj → Fork.obj → Prop :=
  | fork_taken fork :
      Fork.state fork = 0 →
      fork_step r fork
        {| Fork.id := Fork.id fork; Fork.state := 1; Fork.holder := Some r |}
  | fork_freed fork :
      Fork.holder fork = Some r →
      fork_step r fork
        {| Fork.id := Fork.id fork; Fork.state := 0; Fork.holder := None |}.

(** What a turn of a call of [r] can do to the table. *)
Definition frame (r : Z) (tb tb' : list Fork.obj) : Prop :=
  Forall2 (rtc (fork_step r)) tb tb'.

(** A call is in order at a table: the forks it has in hand are distinct
    forks whose holder is its philosopher, and it has not failed on a
    [release]. *)
Definition hand_ok (tb : list Fork.obj) (p : Philosopher.obj)
    (st : Turn Philosopher.NaivePoint) : Prop :=
  Forall (λ x, holds tb x (Philosopher.id p)) (in_hand p st) ∧
  NoDup (js_slot tb <$> in_hand p st) ∧
  ∀ message, st ≠ Thrown (OwnershipError message).

(** The invariant of a table of philosophers that run [startNaive]. *)
Record table_inv (sys : System) : Prop := mkTableInv {
  inv_forks : Forall fork_inv (table (world sys));
  inv_ids : NoDup ((λ task, Philosopher.id task.1) <$> tasks sys);
  inv_hand :
    Forall (λ task, hand_ok (table (world sys)) task.1 task.2) (tasks sys)
}.

(** ** The log as the calls of [log] since the last [clearEventLog] *)

(** The arguments that an entry records. *)
Definition log_args (entry : Entry) : Z * string * list jsnum :=
  (phil entry, event entry, forks entry).

(** The arguments of the calls of [log] in [cs] that no later
    [clearEventLog] has wiped, after those in [before]. *)
Definition logged (cs : list Call) (before : list (Z * string * list jsnum))
  : list (Z * string * list jsnum) :=
  foldl (λ l c, match c with
                | CallLog philId event forks => l ++ [(philId, event, forks)]
                | CallClearEventLog => []
                | _ => l
                end)
        before cs.

(** The entries of the log carry times that are not negative, do not
    decrease and are at most what [log] would stamp now. *)
Definition stamped `{Host} (g : Globals) : Prop :=
  (∃ origin, startTime g = Date_now origin ∧ (origin ≤ clock_reads g)%nat) ∧
  Forall (λ e, 0 ≤ t e ≤ Date_now (clock_reads g) - startTime g) (eventLog g) ∧
  StronglySorted Z.le (t <$> eventLog g).

(** ** The state in which every philosopher has its left fork *)

(** Fork [i], taken by philosopher [i]. *)
Definition left_taken (i : nat) : Fork.obj :=
  {| Fork.id := Z.of_nat i; Fork.state := 1; Fork.holder := Some (Z.of_nat i) |}.

(** [n] forks of which the first [m] are taken, each by the philosopher on
    its right. *)
Definition half_taken (n m : nat) : list Fork.obj :=
  (λ i : nat, if decide (i < m)%nat then left_taken i
              else Fork.new (Z.of_nat i)) <$> seq 0 n.

Definition taken_forks (n : nat) : list Fork.obj := left_taken <$> seq 0 n.

(** A call that waits for a fork of the table before it has its second
    fork. *)
Definition blocked (tb : list Fork.obj)
    (task : Philosopher.obj * Turn Philosopher.NaivePoint) : Prop :=
  before_second task.2 = true ∧
  is_Some (js_slot tb (Philosopher.f1 task.1)) ∧
  is_Some (js_slot tb (Philosopher.f2 task.1)).

(** ** run-experiments.js: the command line *)







(** * Properties *)

(** ** Fork.release *)

Example release_message_1_2 :
  Fork.release_message 2 (Some 1) = "Philosopher 2 cannot release fork held by 1".
Proof. vm_compute. reflexivity. Qed.

Example release_message_null :
  Fork.release_message 0 None = "Philosopher 0 cannot release fork held by null".
Proof. vm_compute. reflexivity. Qed.

Section ForkRelease.
Context `{Host}.
Implicit Types (this : Fork.obj) (g : Globals) (r : Z) (fs : list jsnum).

Lemma release_not_holder r fs this g :
  Fork.holder this ≠ Some r →
  Fork.release r fs this g =
    (this, g, Throw (OwnershipError (Fork.release_message r (Fork.holder this)))).
Proof. intros Hne. unfold Fork.release. by rewrite decide_True. Qed.

Lemma release_holder r fs this g :
  Fork.holder this = Some r →
  Fork.release r fs this g =
    ({| Fork.id := Fork.id this; Fork.state := 0; Fork.holder := None |},
     log r "RELEASE" fs g, Normal).
Proof.
  intros Heq. unfold Fork.release. rewrite decide_False; [done|].
  intros Hne. by apply Hne.
Qed.
End ForkRelease.

(** C2.  [release(r, forks)] throws exactly when [r] is not the holder of the
    fork (a free fork has holder null, so every [r] fails on it); the message
    of the error is "Philosopher r cannot release fork held by h" with [h] the
    actual holder; when [r] is the holder the fork becomes free, the holder is
    cleared and exactly one entry is appended to the log, a RELEASE of [r]. *)
Theorem release_spec `{Host} (r : Z) (fs : list jsnum) (this : Fork.obj)
    (g : Globals) :
  match Fork.release r fs this g with
  | (_, _, Throw e) =>
      Fork.holder this ≠ Some r ∧
      e = OwnershipError
            ("Philosopher " +:+ pretty r +:+ " cannot release fork held by " +:+
             match Fork.holder this with Some h => pretty h | None => "null" end)
  | (this', g', Normal) =>
      Fork.holder this = Some r ∧
      Fork.state this' = 0 ∧ Fork.holder this' = None ∧
      Fork.id this' = Fork.id this ∧
      ∃ entry, eventLog g' = eventLog g ++ [entry] ∧
               event entry = "RELEASE" ∧ phil entry = r ∧ forks entry = fs
  end.
Proof.
  destruct (decide (Fork.holder this = Some r)) as [Heq|Hne].
  - rewrite release_holder by done. repeat split; try done.
    eexists. split; [reflexivity|done].
  - rewrite release_not_holder by done. split; [done|].
    unfold Fork.release_message, Fork.show_holder. by destruct (Fork.holder this).
Qed.

(** C9.  A [release] that throws leaves the state and the holder of the fork
    and the whole log as they were. *)
Theorem release_failure_atomic `{Host} (r : Z) (fs : list jsnum)
    (this this' : Fork.obj) (g g' : Globals) (e : Error) :
  Fork.release r fs this g = (this', g', Throw e) →
  Fork.holder this ≠ Some r ∧
  Fork.state this' = Fork.state this ∧
  Fork.holder this' = Fork.holder this ∧
  eventLog g' = eventLog g ∧
  this' = this ∧ g' = g.
Proof.
  unfold Fork.release. case_decide as Hh; intros Heq; [|discriminate].
  by simplify_eq.
Qed.

Lemma release_failure_atomic_witness :
  let this := {| Fork.id := 0; Fork.state := 1; Fork.holder := Some 1 |} in
  let g := @module_init sample_host in
  Fork.holder this ≠ Some 2 ∧
  Fork.state this = Fork.state this ∧
  Fork.holder this = Fork.holder this ∧
  eventLog g = eventLog g ∧
  this = this ∧ g = g.
Proof.
  intros this g.
  apply (@release_failure_atomic sample_host 2 [Num 0] this this g g
           (OwnershipError "Philosopher 2 cannot release fork held by 1")).
  vm_compute. reflexivity.
Defined.

(** ** Fork.acquire *)

Lemma waitTime_after_S k :
  waitTime_after (S k) = Z.min (waitTime_after k * 2) Fork.maxWait.
Proof. reflexivity. Qed.

Lemma waitTime_after_closed k : waitTime_after k = Z.min (2 ^ Z.of_nat k) 1000.
Proof.
  induction k as [|k IH]; [reflexivity|].
  rewrite waitTime_after_S, IH. unfold Fork.maxWait.
  rewrite Nat2Z.inj_succ, Z.pow_succ_r by lia.
  assert (0 < 2 ^ Z.of_nat k) as Hpos by (apply Z.pow_pos_nonneg; lia).
  revert Hpos. generalize (2 ^ Z.of_nat k). intros p Hpos. lia.
Qed.

Section ForkAcquire.
Context `{Host}.
Implicit Types (this : Fork.obj) (g : Globals) (r : Z) (fs : list jsnum).

Lemma acquire_check_free r fs waitTime this g :
  Fork.state this = 0 →
  Fork.acquire_check r fs waitTime this g =
    ({| Fork.id := Fork.id this; Fork.state := 1; Fork.holder := Some r |},
     log r "ACQUIRE" fs g, Returned).
Proof. intros Hs. unfold Fork.acquire_check. by rewrite decide_True. Qed.

Lemma acquire_check_taken r fs waitTime this g :
  Fork.state this ≠ 0 →
  Fork.acquire_check r fs waitTime this g =
    (this, g, Awaiting (Timer waitTime) waitTime).
Proof. intros Hs. unfold Fork.acquire_check. by rewrite decide_False. Qed.

(** The waits of a run that enters the loop after [k] doublings. *)
Lemma drive_acquire_waits r fs others : ∀ k this g,
  let waits :=
    (drive (λ waitTime fg, Fork.acquire_resume r fs waitTime fg.1 fg.2) others
           (Fork.acquire_check r fs (waitTime_after k) this g)).1 in
  waits = (λ j, Timer (waitTime_after (k + j))) <$> seq 0 (length waits).
Proof.
  induction others as [|o others IH]; intros k this g waits; subst waits.
  - destruct (decide (Fork.state this = 0)) as [Hs|Hs].
    + by rewrite acquire_check_free.
    + rewrite acquire_check_taken by done. simpl. by rewrite Nat.add_0_r.
  - destruct (decide (Fork.state this = 0)) as [Hs|Hs].
    + by rewrite acquire_check_free.
    + rewrite acquire_check_taken by done. simpl.
      unfold Fork.acquire_resume. rewrite <- waitTime_after_S.
      specialize (IH (S k) (o (this, g)).1 (o (this, g)).2).
      destruct (drive _ others _) as [waits final] eqn:Hd. simpl in *.
      rewrite Nat.add_0_r. f_equal.
      rewrite IH at 1. rewrite <- fmap_S_seq, <- list_fmap_compose.
      apply list_fmap_ext. intros _ j _. simpl. f_equal. f_equal. lia.
Qed.

(** A fork that stays taken makes the call wait once more per turn. *)
Lemma drive_acquire_taken r fs others : ∀ k this g,
  Fork.state this ≠ 0 →
  Forall (λ o, ∀ fg, Fork.state (o fg).1 ≠ 0) others →
  length (drive (λ waitTime fg, Fork.acquire_resume r fs waitTime fg.1 fg.2)
                others
                (Fork.acquire_check r fs (waitTime_after k) this g)).1
  = S (length others).
Proof.
  induction others as [|o others IH]; intros k this g Hs Hall.
  - by rewrite acquire_check_taken.
  - rewrite acquire_check_taken by done. simpl.
    unfold Fork.acquire_resume. rewrite <- waitTime_after_S.
    inversion Hall as [|?? Ho Hrest]; subst.
    specialize (IH (S k) (o (this, g)).1 (o (this, g)).2 (Ho _) Hrest).
    destruct (drive _ others _) as [waits final]. simpl in *. by rewrite IH.
Qed.
End ForkAcquire.

(** C3.  [acquire(r, forks)] appends one TRY entry and goes on to the first
    check in the same turn.  At a check that finds the fork free ([state] 0)
    the fork becomes taken with holder [r], one ACQUIRE entry is appended and
    the call returns in that turn; at a check that finds it taken nothing is
    written and the call suspends on a timer.  Whatever the other tasks do in
    between, the k-th wait of a call (k = 0, 1, ...) lasts min(2^k, 1000):
    1, 2, 4, 8, ..., 512, 1000, 1000, ... *)
Theorem acquire_spec `{Host} (r : Z) (fs : list jsnum) (this : Fork.obj)
    (g : Globals) :
  (∃ try,
     event try = "TRY" ∧ phil try = r ∧ forks try = fs ∧
     if decide (Fork.state this = 0) then
       ∃ acq g',
         event acq = "ACQUIRE" ∧ phil acq = r ∧ forks acq = fs ∧
         eventLog g' = eventLog g ++ [try; acq] ∧
         Fork.acquire r fs this g =
           ({| Fork.id := Fork.id this; Fork.state := 1; Fork.holder := Some r |},
            g', Returned)
     else
       ∃ g',
         eventLog g' = eventLog g ++ [try] ∧
         Fork.acquire r fs this g = (this, g', Awaiting (Timer 1) 1)) ∧
  (∀ waitTime,
     if decide (Fork.state this = 0) then
       ∃ acq g',
         event acq = "ACQUIRE" ∧ phil acq = r ∧ forks acq = fs ∧
         eventLog g' = eventLog g ++ [acq] ∧
         Fork.acquire_resume r fs waitTime this g =
           ({| Fork.id := Fork.id this; Fork.state := 1; Fork.holder := Some r |},
            g', Returned)
     else
       let next := Z.min (waitTime * 2) 1000 in
       Fork.acquire_resume r fs waitTime this g =
         (this, g, Awaiting (Timer next) next)) ∧
  (∀ others,
     let waits := (acquire_drive r fs others this g).1 in
     waits = (λ k : nat, Timer (Z.min (2 ^ Z.of_nat k) 1000))
               <$> seq 0 (length waits)).
Proof.
  split; [|split].
  - exists (mkEntry (currentRunId g) (currentAlgorithm g)
                    (Date_now (clock_reads g) - startTime g) r "TRY" fs).
    do 3 (split; [reflexivity|]).
    unfold Fork.acquire. case_decide as Hs.
    + rewrite acquire_check_free by done.
      set (g1 := log r "TRY" fs g).
      exists (mkEntry (currentRunId g1) (currentAlgorithm g1)
                      (Date_now (clock_reads g1) - startTime g1) r "ACQUIRE" fs).
      exists (log r "ACQUIRE" fs g1).
      do 3 (split; [reflexivity|]). split; [|reflexivity].
      simpl. by rewrite <- app_assoc.
    + rewrite acquire_check_taken by done.
      eexists. split; [|reflexivity]. reflexivity.
  - intros waitTime. unfold Fork.acquire_resume. case_decide as Hs.
    + rewrite acquire_check_free by done.
      exists (mkEntry (currentRunId g) (currentAlgorithm g)
                      (Date_now (clock_reads g) - startTime g) r "ACQUIRE" fs).
      exists (log r "ACQUIRE" fs g).
      do 3 (split; [reflexivity|]). split; reflexivity.
    + by rewrite acquire_check_taken.
  - intros others waits. subst waits. unfold acquire_drive, Fork.acquire.
    pose proof (drive_acquire_waits r fs others 0 this (log r "TRY" fs g)) as Hw.
    simpl in Hw. change (waitTime_after 0) with 1 in Hw.
    rewrite Hw at 1. apply list_fmap_ext. intros _ k _.
    by rewrite waitTime_after_closed.
Qed.

(** A run of [acquire] on a fork that stays taken for twelve suspensions. *)
Example acquire_thirteen_waits :
  (@acquire_drive sample_host 7 [Num 0; Num 1] (replicate 12 id)
     {| Fork.id := 0; Fork.state := 1; Fork.holder := Some 3 |}
     (@module_init sample_host)).1
  = Timer <$> [1; 2; 4; 8; 16; 32; 64; 128; 256; 512; 1000; 1000; 1000].
Proof. vm_compute. reflexivity. Qed.

(** ** The invariant of a fork *)

Section ForkInvariant.
Context `{Host}.
Implicit Types (this : Fork.obj) (g : Globals) (r : Z) (fs : list jsnum).

Lemma fork_inv_new i : fork_inv (Fork.new i).
Proof. unfold fork_inv. simpl. split; [discriminate|congruence]. Qed.

Lemma fork_inv_taken i r :
  fork_inv {| Fork.id := i; Fork.state := 1; Fork.holder := Some r |}.
Proof. unfold fork_inv. simpl. split; [discriminate|reflexivity]. Qed.

Lemma fork_inv_free i :
  fork_inv {| Fork.id := i; Fork.state := 0; Fork.holder := None |}.
Proof. apply fork_inv_new. Qed.

Lemma acquire_check_inv r fs waitTime this g :
  fork_inv this → fork_inv (Fork.acquire_check r fs waitTime this g).1.1.
Proof.
  intros Hinv. unfold Fork.acquire_check. case_decide; simpl; [|done].
  apply fork_inv_taken.
Qed.

(** A call that has returned did so in a turn that took the fork. *)
Lemma drive_acquire_returned r fs others : ∀ waitTime this g waits this' g',
  drive (λ waitTime fg, Fork.acquire_resume r fs waitTime fg.1 fg.2) others
        (Fork.acquire_check r fs waitTime this g)
    = (waits, (this', g', Returned)) →
  Fork.state this' = 1 ∧ Fork.holder this' = Some r.
Proof.
  induction others as [|o others IH]; intros waitTime this g waits this' g'.
  - unfold Fork.acquire_check. case_decide; simpl; intros Heq; by simplify_eq.
  - unfold Fork.acquire_check at 1. case_decide; simpl.
    + intros Heq. by simplify_eq.
    + unfold Fork.acquire_resume.
      destruct (drive _ others _) as [waits0 final] eqn:Hd.
      intros Heq. simplify_eq. by eapply IH.
Qed.

Lemma release_inv r fs this g :
  fork_inv this → fork_inv (Fork.release r fs this g).1.1.
Proof.
  intros Hinv. unfold Fork.release. case_decide; simpl; [done|].
  apply fork_inv_free.
Qed.
End ForkInvariant.

(** C6.  "[state] is 1 if and only if [holder] is not null" holds for a new
    fork; every turn of [acquire] keeps it and a call of [acquire] that has
    returned leaves the fork in it, whatever the other tasks did meanwhile;
    [release] keeps it whether it throws or not.  A fork that is not free
    becomes free only through a [release] by its holder: [release] by anybody
    else and every turn of [acquire] leave a taken fork taken. *)
Theorem fork_invariant `{Host} :
  (∀ i, fork_inv (Fork.new i)) ∧
  (∀ r fs waitTime this g,
     fork_inv this →
     fork_inv (Fork.acquire r fs this g).1.1 ∧
     fork_inv (Fork.acquire_resume r fs waitTime this g).1.1) ∧
  (∀ r fs others this g waits this' g',
     acquire_drive r fs others this g = (waits, (this', g', Returned)) →
     fork_inv this' ∧ Fork.state this' = 1 ∧ Fork.holder this' = Some r) ∧
  (∀ r fs this g,
     fork_inv this → fork_inv (Fork.release r fs this g).1.1) ∧
  (∀ r fs this g,
     Fork.state this ≠ 0 →
     Fork.state (Fork.release r fs this g).1.1 = 0 →
     Fork.holder this = Some r) ∧
  (∀ r fs waitTime this g,
     Fork.state this ≠ 0 →
     Fork.state (Fork.acquire r fs this g).1.1 ≠ 0 ∧
     Fork.state (Fork.acquire_resume r fs waitTime this g).1.1 ≠ 0).
Proof.
  split; [|split; [|split; [|split; [|split]]]].
  - apply fork_inv_new.
  - intros r fs waitTime this g Hinv. split; by apply acquire_check_inv.
  - intros r fs others this g waits this' g' Hrun.
    unfold acquire_drive, Fork.acquire in Hrun.
    apply drive_acquire_returned in Hrun as [Hs Hh].
    split; [|done]. unfold fork_inv. rewrite Hs, Hh. done.
  - intros r fs this g. apply release_inv.
  - intros r fs this g Htaken. unfold Fork.release.
    case_decide as Hh; simpl; [done|].
    intros _. by destruct (decide (Fork.holder this = Some r)).
  - intros r fs waitTime this g Htaken.
    unfold Fork.acquire, Fork.acquire_resume.
    by rewrite !acquire_check_taken.
Qed.

Lemma fork_invariant_witness :
  let taken := {| Fork.id := 0; Fork.state := 1; Fork.holder := Some 3 |} in
  let g := @module_init sample_host in
  fork_inv (Fork.new 0) ∧
  fork_inv (@Fork.acquire sample_host 4 [Num 0] taken g).1.1 ∧
  fork_inv (@Fork.release sample_host 3 [Num 0] taken g).1.1 ∧
  fork_inv (@Fork.release sample_host 4 [Num 0] taken g).1.1 ∧
  Fork.holder taken = Some 3 ∧
  Fork.state (@Fork.acquire sample_host 4 [Num 0] taken g).1.1 ≠ 0.
Proof.
  intros taken g.
  destruct (@fork_invariant sample_host) as (Hnew & Hacq & _ & Hrel & Honly & Hkeep).
  assert (fork_inv taken) as Hinv by apply fork_inv_taken.
  split; [apply Hnew|].
  split; [apply (Hacq 4 [Num 0] 1 taken g Hinv)|].
  split; [by apply Hrel|].
  split; [by apply Hrel|].
  split; [apply (Honly 3 [Num 0] taken g); [done|reflexivity]|].
  apply (Hkeep 4 [Num 0] 1 taken g). done.
Defined.

(** ** The event log *)

Section Logging.
Context `{Host}.
Implicit Types (g : Globals) (cs : list Call).

Lemma calls_cons c cs g : calls (c :: cs) g = calls cs (call c g).
Proof. reflexivity. Qed.

(** Calls other than [startRun] leave the run and its origin alone; the
    label follows [setAlgorithm]. *)
Lemma calls_without_startRun cs : ∀ g,
  forallb (λ c, negb (is_startRun c)) cs = true →
  currentRunId (calls cs g) = currentRunId g ∧
  startTime (calls cs g) = startTime g ∧
  currentAlgorithm (calls cs g) = relabel cs (currentAlgorithm g).
Proof.
  induction cs as [|c cs IH]; intros g Hno; [done|].
  simpl in Hno. apply andb_prop in Hno as [Hc Hcs].
  rewrite calls_cons. destruct (IH (call c g) Hcs) as (-> & -> & ->).
  by destruct c.
Qed.

Lemma relabel_without_setAlgorithm cs label :
  Forall (λ c, ∀ name, c ≠ CallSetAlgorithm name) cs →
  relabel cs label = label.
Proof.
  induction 1 as [|c cs Hc _ IH]; [done|].
  unfold relabel in *. simpl. destruct c; try done. by destruct (Hc name).
Qed.

(** The entry that [log] appends after a [startRun] and calls other than
    [startRun]. *)
Lemma log_after_startRun algorithm between philId event forks g :
  forallb (λ c, negb (is_startRun c)) between = true →
  let g2 := calls between (startRun algorithm g).2 in
  eventLog (log philId event forks g2) =
    eventLog g2 ++
      [{| runId := Some (startRun algorithm g).1;
          algorithm := relabel between (js_or algorithm (currentAlgorithm g));
          t := Date_now (clock_reads g2) - Date_now (clock_reads g);
          phil := philId;
          event := event;
          forks := forks |}].
Proof.
  intros Hno g2.
  destruct (calls_without_startRun between (startRun algorithm g).2 Hno)
    as (Hrid & Hstart & Hlabel).
  unfold log. simpl. fold g2 in Hrid, Hstart, Hlabel.
  by rewrite Hrid, Hstart, Hlabel.
Qed.

Lemma calls_app cs1 cs2 g : calls (cs1 ++ cs2) g = calls cs2 (calls cs1 g).
Proof. apply foldl_app. Qed.

(** The entry that [log] appends when [startRun] has not been called since
    the state [g]: it carries the run, the origin and the label of [g], the
    label as the calls of [setAlgorithm] have changed it. *)
Lemma log_without_startRun cs philId event forks g :
  forallb (λ c, negb (is_startRun c)) cs = true →
  eventLog (log philId event forks (calls cs g)) =
    eventLog (calls cs g) ++
      [{| runId := currentRunId g;
          algorithm := relabel cs (currentAlgorithm g);
          t := Date_now (clock_reads (calls cs g)) - startTime g;
          phil := philId;
          event := event;
          forks := forks |}].
Proof.
  intros Hno.
  destruct (calls_without_startRun cs g Hno) as (Hrid & Hstart & Hlabel).
  unfold log. simpl. by rewrite Hrid, Hstart, Hlabel.
Qed.

(** A sequence of calls either holds no [startRun] or splits at its last
    [startRun]. *)
Lemma last_startRun cs :
  forallb (λ c, negb (is_startRun c)) cs = true ∨
  ∃ before algorithm between,
    cs = before ++ CallStartRun algorithm :: between ∧
    forallb (λ c, negb (is_startRun c)) between = true.
Proof.
  induction cs as [|c cs IH] using rev_ind; [by left|].
  destruct (is_startRun c) eqn:Hc.
  - right. destruct c as [algorithm| | |]; try discriminate.
    by exists cs, algorithm, [].
  - destruct IH as [Hno|(before & algorithm & between & -> & Hno)].
    + left. rewrite forallb_app, Hno. simpl. by rewrite Hc.
    + right. exists before, algorithm, (between ++ [c]).
      split; [by rewrite <- app_assoc|].
      rewrite forallb_app, Hno. simpl. by rewrite Hc.
Qed.
End Logging.

(** C8 as amended.  Every entry that [log] appends has the six fields
    [runId], [algorithm], [t], [phil], [event], [forks], and [phil], [event]
    and [forks] are the arguments of [log].  Let [history] be the calls made
    so far.
    - If [history] holds no [startRun], [runId] and the origin of [t] are
      those of the state the calls started from, and [algorithm] is its label
      or the name given to the latest [setAlgorithm]; from the load of the
      module that is [null], the clock at load and 'unknown'.
    - Otherwise, for the last [startRun] of [history]: [runId] is the identity
      that this call drew and returned; [t] is the clock at the call of [log]
      minus the clock read by that [startRun]; [algorithm] is the label that
      [startRun] set (its argument, or the label in force when the argument
      is falsy), or the name given to the latest [setAlgorithm] called since.
    One of the two cases always applies.  [clearEventLog] leaves the log
    empty in every state. *)
Theorem log_entry_fields `{Host} (history : list Call)
    (philId : Z) (event : string) (forks : list jsnum) (g : Globals) :
  let now := calls history g in
  (forallb (λ c, negb (is_startRun c)) history = true →
   eventLog (log philId event forks now) =
     eventLog now ++
       [{| runId := currentRunId g;
           algorithm := relabel history (currentAlgorithm g);
           t := Date_now (clock_reads now) - startTime g;
           phil := philId;
           event := event;
           forks := forks |}]) ∧
  (∀ before algorithm between,
     history = before ++ CallStartRun algorithm :: between →
     forallb (λ c, negb (is_startRun c)) between = true →
     let g1 := calls before g in
     let rid := (startRun algorithm g1).1 in
     rid = Math_random_base36 (random_draws g1) ∧
     eventLog (log philId event forks now) =
       eventLog now ++
         [{| runId := Some rid;
             algorithm :=
               relabel between (js_or algorithm (currentAlgorithm g1));
             t := Date_now (clock_reads now) - Date_now (clock_reads g1);
             phil := philId;
             event := event;
             forks := forks |}]) ∧
  (forallb (λ c, negb (is_startRun c)) history = true ∨
   ∃ before algorithm between,
     history = before ++ CallStartRun algorithm :: between ∧
     forallb (λ c, negb (is_startRun c)) between = true) ∧
  (currentRunId module_init = None ∧
   currentAlgorithm module_init = JStr "unknown" ∧
   startTime module_init = Date_now 0 ∧
   eventLog module_init = []) ∧
  (∀ g', eventLog (clearEventLog g') = []).
Proof.
  intros now. split; [|split; [|split; [|done]]].
  - intros Hno. by apply log_without_startRun.
  - intros before algorithm between Hsplit Hno g1 rid.
    split; [reflexivity|].
    subst now. rewrite Hsplit, calls_app, calls_cons.
    by apply log_after_startRun.
  - apply last_startRun.
Qed.

Lemma log_entry_fields_witness :
  let g := @module_init sample_host in
  let before := [CallLog 9 "TRY" [Num 9; Num 0]] in
  let between := [CallLog 1 "TRY" [Num 1; Num 2];
                  CallSetAlgorithm (JStr "conductor");
                  CallClearEventLog] in
  let history := before ++ CallStartRun (JStr "naive") :: between in
  eventLog (@log sample_host 3 "TRY" [Num 3; Num 4] g) =
    [{| runId := None;
        algorithm := JStr "unknown";
        t := 5;
        phil := 3;
        event := "TRY";
        forks := [Num 3; Num 4] |}] ∧
  eventLog (@log sample_host 0 "EAT_START" [Num 0; Num 1]
              (@calls sample_host history g)) =
    [{| runId := Some "k3x9a0";
        algorithm := JStr "conductor";
        t := 10;
        phil := 0;
        event := "EAT_START";
        forks := [Num 0; Num 1] |}].
Proof.
  intros g before between history. split.
  - destruct (@log_entry_fields sample_host [] 3 "TRY" [Num 3; Num 4] g)
      as (Hlog & _).
    exact (Hlog eq_refl).
  - destruct (@log_entry_fields sample_host history 0 "EAT_START"
                [Num 0; Num 1] g) as (_ & Hlog & _).
    destruct (Hlog before (JStr "naive") between eq_refl eq_refl)
      as (_ & Hentry).
    exact Hentry.
Defined.

(** C8 as stated fails: an entry appended after [startRun('asymmetric')] and
    a later [setAlgorithm('conductor')] carries the label 'conductor', not the
    one the [startRun] call set. *)
Lemma log_algorithm_counterexample :
  let g1 := (@startRun sample_host (JStr "asymmetric") (@module_init sample_host)).2 in
  let g2 := setAlgorithm (JStr "conductor") g1 in
  let g3 := @log sample_host 0 "TRY" [Num 0; Num 1] g2 in
  currentAlgorithm g1 = JStr "asymmetric" ∧
  currentRunId g2 = currentRunId g1 ∧
  ∃ entry, eventLog g3 = eventLog g1 ++ [entry] ∧
           runId entry = currentRunId g1 ∧
           algorithm entry = JStr "conductor" ∧
           algorithm entry ≠ currentAlgorithm g1.
Proof.
  intros g1 g2 g3. split; [reflexivity|]. split; [reflexivity|].
  eexists. split; [reflexivity|]. split; [reflexivity|].
  split; [reflexivity|]. discriminate.
Qed.

(** C10.  [startRun] with a falsy argument (none, [null], [false], [0], NaN
    or the empty string) draws a new run identity and reads the clock for a
    new origin, and keeps the label it found; the entries logged afterwards,
    until the next [startRun] or [setAlgorithm], carry that old label. *)
Theorem startRun_falsy_keeps_label `{Host} (algorithm : jsval)
    (between : list Call) (philId : Z) (event : string) (forks : list jsnum)
    (g : Globals) :
  truthy algorithm = false →
  Forall (λ c, ∃ p e fs, c = CallLog p e fs ∨ c = CallClearEventLog) between →
  let rid := (startRun algorithm g).1 in
  let g1 := (startRun algorithm g).2 in
  let g2 := calls between g1 in
  rid = Math_random_base36 (random_draws g) ∧
  random_draws g1 = S (random_draws g) ∧
  currentRunId g1 = Some rid ∧
  startTime g1 = Date_now (clock_reads g) ∧
  clock_reads g1 = S (clock_reads g) ∧
  currentAlgorithm g1 = currentAlgorithm g ∧
  eventLog (log philId event forks g2) =
    eventLog g2 ++
      [{| runId := Some rid;
          algorithm := currentAlgorithm g;
          t := Date_now (clock_reads g2) - Date_now (clock_reads g);
          phil := philId;
          event := event;
          forks := forks |}].
Proof.
  intros Hfalsy Hbetween rid g1 g2.
  assert (js_or algorithm (currentAlgorithm g) = currentAlgorithm g) as Hor
    by (unfold js_or; by rewrite Hfalsy).
  do 5 (split; [reflexivity|]).
  split; [unfold g1, startRun; simpl; exact Hor|].
  assert (forallb (λ c, negb (is_startRun c)) between = true) as Hno.
  { apply forallb_forall. intros c Hin.
    rewrite Forall_forall in Hbetween.
    destruct (Hbetween c) as (p & e & fs & [-> | ->]); [|done..].
    by apply list_elem_of_In. }
  pose proof (log_after_startRun algorithm between philId event forks g Hno)
    as Hlog.
  subst rid g1 g2. cbv zeta in Hlog. rewrite Hlog, Hor. do 3 f_equal.
  apply relabel_without_setAlgorithm.
  eapply Forall_impl; [exact Hbetween|].
  intros c (p & e & fs & [-> | ->]) name; discriminate.
Qed.

Lemma startRun_falsy_keeps_label_witness :
  let g := (@startRun sample_host (JStr "naive") (@module_init sample_host)).2 in
  let g1 := (@startRun sample_host JUndefined g).2 in
  currentRunId g = Some "k3x9a0" ∧
  currentRunId g1 = Some "k3x9a1" ∧
  startTime g1 = 1010 ∧
  eventLog (@log sample_host 2 "EAT_END" [Num 2; Num 3] g1) =
    [{| runId := Some "k3x9a1";
        algorithm := JStr "naive";
        t := 5;
        phil := 2;
        event := "EAT_END";
        forks := [Num 2; Num 3] |}].
Proof.
  intros g g1.
  destruct (@startRun_falsy_keeps_label sample_host JUndefined [] 2 "EAT_END"
              [Num 2; Num 3] g eq_refl (Forall_nil_2 _))
    as (_ & _ & Hrid & Hstart & _ & _ & Hlog).
  split; [reflexivity|]. split; [exact Hrid|]. split; [exact Hstart|].
  exact Hlog.
Defined.

(** ** analyzeLog *)

Section Analyzer.
Implicit Types (log : list Entry) (results : Results) (entry : Entry).

Lemma analyze_from_snoc n log : ∀ i results entry,
  analyze_from n i (log ++ [entry]) results =
    analyze_entry n (i + length log) entry (analyze_from n i log results).
Proof.
  induction log as [|e log IH]; intros i results entry; simpl.
  - by rewrite Nat.add_0_r.
  - rewrite IH. f_equal. lia.
Qed.

Lemma zeros_lookup n j : 0 ≤ j < n → zeros n !! j = Some (Num 0).
Proof.
  intros Hj. unfold zeros. apply lookup_gset_to_gmap_Some. split; [|done].
  apply elem_of_list_to_set, elem_of_seqZ. lia.
Qed.

Lemma analyze_entry_other n i entry results :
  event entry ≠ "EAT_START" → event entry ≠ "EAT_END" →
  analyze_entry n i entry results = results.
Proof.
  intros Hs He. unfold analyze_entry.
  destruct (String.eqb_spec (event entry) "EAT_START"); [done|].
  by destruct (String.eqb_spec (event entry) "EAT_END").
Qed.

Lemma analyze_entry_meals n i entry results j c :
  mealsPerPhilosopher results !! j = Some (Num c) →
  mealsPerPhilosopher (analyze_entry n i entry results) !! j =
    Some (Num (c + meals_of j [entry])).
Proof.
  intros Hj. unfold analyze_entry, meals_of.
  destruct (String.eqb_spec (event entry) "EAT_START") as [Hs|Hs].
  { simpl. rewrite filter_cons_False, filter_nil; simpl.
    - by rewrite Z.add_0_r.
    - intros [He _]. by rewrite Hs in He. }
  destruct (String.eqb_spec (event entry) "EAT_END") as [He|He].
  - simpl. unfold increment.
    destruct (decide (phil entry = j)) as [Heq|Hne].
    + rewrite Heq, Hj, lookup_insert_eq.
      rewrite filter_cons_True, filter_nil by done. reflexivity.
    + rewrite lookup_insert_ne by done.
      rewrite filter_cons_False, filter_nil by tauto. simpl.
      by rewrite Z.add_0_r.
  - rewrite filter_cons_False, filter_nil by tauto. simpl.
    by rewrite Z.add_0_r.
Qed.

Lemma meals_of_cons j entry log :
  meals_of j (entry :: log) = meals_of j [entry] + meals_of j log.
Proof.
  unfold meals_of.
  change (entry :: log) with ([entry] ++ log).
  rewrite filter_app, length_app. lia.
Qed.

Lemma analyze_from_meals n j log : ∀ i results c,
  mealsPerPhilosopher results !! j = Some (Num c) →
  mealsPerPhilosopher (analyze_from n i log results) !! j =
    Some (Num (c + meals_of j log)).
Proof.
  induction log as [|e log IH]; intros i results c Hj; simpl.
  - unfold meals_of. simpl. by rewrite Z.add_0_r.
  - rewrite (IH _ _ _ (analyze_entry_meals n i e results j c Hj)).
    rewrite (meals_of_cons j e log). do 2 f_equal. lia.
Qed.

Lemma left_neighbor n i :
  0 < n → 0 ≤ i → js_rem (i - 1 + n) n = Num ((i - 1) `mod` n).
Proof.
  intros Hn Hi. unfold js_rem. rewrite decide_False by lia. f_equal.
  rewrite Z.rem_mod_nonneg by lia.
  replace (i - 1 + n) with (i - 1 + 1 * n) by lia.
  apply Z.mod_add. lia.
Qed.

Lemma right_neighbor n i :
  0 < n → 0 ≤ i → js_rem (i + 1) n = Num ((i + 1) `mod` n).
Proof.
  intros Hn Hi. unfold js_rem. rewrite decide_False by lia. f_equal.
  apply Z.rem_mod_nonneg; lia.
Qed.
End Analyzer.

Section AnalyzerStep.
Implicit Types (log : list Entry) (results : Results) (entry : Entry).

Lemma meals_of_singleton j entry :
  meals_of j [entry] =
    if decide (event entry = "EAT_END" ∧ phil entry = j) then 1 else 0.
Proof.
  unfold meals_of. case_decide as Hd.
  - by rewrite filter_cons_True, filter_nil.
  - by rewrite filter_cons_False, filter_nil.
Qed.

(** What one EAT_START adds to the list of violations. *)
Lemma analyze_entry_violations n i entry results :
  ∃ new,
    mutualExclusionViolations (analyze_entry n i entry results) =
      mutualExclusionViolations results ++ new ∧
    Forall (λ r, index r = i) new ∧
    (new ≠ [] ↔
       event entry = "EAT_START" ∧
       (has (currentlyEating results) (js_rem (phil entry - 1 + n) n) = true ∨
        has (currentlyEating results) (js_rem (phil entry + 1) n) = true)).
Proof.
  unfold analyze_entry.
  destruct (String.eqb_spec (event entry) "EAT_START") as [Hs|Hs]; simpl.
  - destruct (has _ (js_rem (phil entry - 1 + n) n)) eqn:Hl;
      destruct (has _ (js_rem (phil entry + 1) n)) eqn:Hr.
    + eexists [_; _]. rewrite <- app_assoc. split; [reflexivity|].
      split; [by repeat constructor|]. split; [by auto|done].
    + eexists [_]. split; [reflexivity|].
      split; [by repeat constructor|]. split; [by auto|done].
    + eexists [_]. split; [reflexivity|].
      split; [by repeat constructor|]. split; [by auto|done].
    + exists []. rewrite app_nil_r. split; [reflexivity|].
      split; [constructor|]. split; [done|]. by intros [_ [?|?]].
  - exists []. rewrite app_nil_r.
    split; [by destruct (String.eqb_spec (event entry) "EAT_END")|].
    split; [constructor|]. split; [done|]. by intros [? _].
Qed.

(** What one EAT_END adds to the list of sequence errors. *)
Lemma analyze_entry_sequence n i entry results :
  ∃ new,
    sequenceErrors (analyze_entry n i entry results) =
      sequenceErrors results ++ new ∧
    Forall (λ r, index r = i) new ∧
    (new ≠ [] ↔
       event entry = "EAT_END" ∧ phil entry ∉ currentlyEating results).
Proof.
  unfold analyze_entry.
  destruct (String.eqb_spec (event entry) "EAT_START") as [Hs|Hs]; simpl.
  { exists []. rewrite app_nil_r. split; [reflexivity|].
    split; [constructor|]. split; [done|].
    intros [He _]. by rewrite Hs in He. }
  destruct (String.eqb_spec (event entry) "EAT_END") as [He|He]; simpl.
  - case_bool_decide as Hin; simpl.
    + exists []. rewrite app_nil_r. split; [reflexivity|].
      split; [constructor|]. split; [done|]. by intros [_ ?].
    + eexists [_]. split; [reflexivity|].
      split; [by repeat constructor|]. split; [by auto|done].
  - exists []. rewrite app_nil_r. split; [reflexivity|].
    split; [constructor|]. split; [done|]. by intros [? _].
Qed.

Lemma analyze_entry_eating n i entry results :
  currentlyEating (analyze_entry n i entry results) =
    if decide (event entry = "EAT_START") then
      {[phil entry]} ∪ currentlyEating results
    else if decide (event entry = "EAT_END") then
      currentlyEating results ∖ {[phil entry]}
    else currentlyEating results.
Proof.
  unfold analyze_entry.
  destruct (String.eqb_spec (event entry) "EAT_START") as [Hs|Hs];
    [by rewrite decide_True|rewrite decide_False by done].
  destruct (String.eqb_spec (event entry) "EAT_END") as [He|He];
    [by rewrite decide_True|by rewrite decide_False].
Qed.

(** The reports that one entry adds, in full. *)
Lemma analyze_entry_violations_exact n i entry results :
  mutualExclusionViolations (analyze_entry n i entry results) =
    mutualExclusionViolations results ++
      (if decide (event entry = "EAT_START") then
         (if has (currentlyEating results) (js_rem (phil entry - 1 + n) n)
          then [{| index := i;
                   error := neighbor_message (phil entry)
                              (js_rem (phil entry - 1 + n) n) |}]
          else []) ++
         (if has (currentlyEating results) (js_rem (phil entry + 1) n)
          then [{| index := i;
                   error := neighbor_message (phil entry)
                              (js_rem (phil entry + 1) n) |}]
          else [])
       else []).
Proof.
  unfold analyze_entry.
  destruct (String.eqb_spec (event entry) "EAT_START") as [Hs|Hs].
  - rewrite decide_True by done. cbn [mutualExclusionViolations].
    destruct (has _ (js_rem (phil entry - 1 + n) n));
      destruct (has _ (js_rem (phil entry + 1) n));
      by rewrite <- ?app_assoc, ?app_nil_r.
  - rewrite decide_False, app_nil_r by done.
    by destruct (String.eqb_spec (event entry) "EAT_END").
Qed.

Lemma analyze_entry_sequence_exact n i entry results :
  sequenceErrors (analyze_entry n i entry results) =
    sequenceErrors results ++
      (if decide (event entry = "EAT_END" ∧
                  phil entry ∉ currentlyEating results)
       then [{| index := i; error := sequence_message (phil entry) |}]
       else []).
Proof.
  unfold analyze_entry.
  destruct (String.eqb_spec (event entry) "EAT_START") as [Hs|Hs].
  { rewrite decide_False, app_nil_r; [done|].
    intros [He _]. by rewrite Hs in He. }
  destruct (String.eqb_spec (event entry) "EAT_END") as [He|He].
  - cbn [sequenceErrors has]. case_bool_decide as Hin; cbn [negb].
    + rewrite decide_False, app_nil_r; [done|]. by intros [_ ?].
    + by rewrite decide_True.
  - rewrite decide_False, app_nil_r; [done|]. by intros [? _].
Qed.

(** [Array(n).fill(0)] has the keys 0..n-1 and no other. *)
Lemma zeros_lookup_all n j :
  zeros n !! j = if decide (0 ≤ j < n) then Some (Num 0) else None.
Proof.
  unfold zeros. case_decide as Hj.
  - apply lookup_gset_to_gmap_Some. split; [|done].
    apply elem_of_list_to_set, elem_of_seqZ. lia.
  - apply lookup_gset_to_gmap_None.
    rewrite elem_of_list_to_set, elem_of_seqZ. lia.
Qed.
End AnalyzerStep.

(** C7.  For an actor count [n] that [Array(n)] accepts, [analyzeLog] is a
    function of the log and [n].  On the empty log every actor of the ring
    has the count 0, no other key has a count, there is no report and nobody
    is eating.  Appending one entry of actor [i] to a log changes the result
    as follows.
    - meals: the count of an actor [j] of the ring is the number of EAT_END
      entries of [j]; it grows by one exactly when the entry is an EAT_END of
      [j];
    - violations: for an identity [i] that is not negative, reports are
      added, at the index of the entry, exactly when the entry is an
      EAT_START and [(i - 1) mod n] or [(i + 1) mod n] is in the set of eating
      actors; what is added is one report for the left neighbour if it is
      eating, then one for the right neighbour if it is eating;
    - sequence errors: a report is added exactly when the entry is an EAT_END
      and [i] is not in that set, and then it is one report;
    - the set gains [i] on EAT_START, loses [i] on EAT_END and is unchanged
      otherwise;
    - TRY, ACQUIRE, RELEASE and TIMEOUT entries change nothing. *)
Theorem analyzeLog_spec (log : list Entry) (entry : Entry) (n : Z) :
  0 ≤ n < 2 ^ 32 →
  (∃ start,
     analyzeLog [] n = inr start ∧
     (∀ j, mealsPerPhilosopher start !! j =
             if decide (0 ≤ j < n) then Some (Num 0) else None) ∧
     sequenceErrors start = [] ∧
     mutualExclusionViolations start = [] ∧
     currentlyEating start = ∅) ∧
  ∃ before after,
    analyzeLog log n = inr before ∧
    analyzeLog (log ++ [entry]) n = inr after ∧
    (∀ j, 0 ≤ j < n →
       mealsPerPhilosopher before !! j = Some (Num (meals_of j log)) ∧
       mealsPerPhilosopher after !! j =
         Some (Num (meals_of j log +
                    if decide (event entry = "EAT_END" ∧ phil entry = j)
                    then 1 else 0))) ∧
    (∃ new,
       mutualExclusionViolations after =
         mutualExclusionViolations before ++ new ∧
       Forall (λ r, index r = length log) new ∧
       (0 < n → 0 ≤ phil entry →
        (new ≠ [] ↔
           event entry = "EAT_START" ∧
           ((phil entry - 1) `mod` n ∈ currentlyEating before ∨
            (phil entry + 1) `mod` n ∈ currentlyEating before))) ∧
       new =
         (if decide (event entry = "EAT_START") then
            (if has (currentlyEating before) (js_rem (phil entry - 1 + n) n)
             then [{| index := length log;
                      error := neighbor_message (phil entry)
                                 (js_rem (phil entry - 1 + n) n) |}]
             else []) ++
            (if has (currentlyEating before) (js_rem (phil entry + 1) n)
             then [{| index := length log;
                      error := neighbor_message (phil entry)
                                 (js_rem (phil entry + 1) n) |}]
             else [])
          else [])) ∧
    (∃ new,
       sequenceErrors after = sequenceErrors before ++ new ∧
       Forall (λ r, index r = length log) new ∧
       (new ≠ [] ↔
          event entry = "EAT_END" ∧ phil entry ∉ currentlyEating before) ∧
       new =
         (if decide (event entry = "EAT_END" ∧
                     phil entry ∉ currentlyEating before)
          then [{| index := length log;
                   error := sequence_message (phil entry) |}]
          else [])) ∧
    currentlyEating after =
      (if decide (event entry = "EAT_START") then
         {[phil entry]} ∪ currentlyEating before
       else if decide (event entry = "EAT_END") then
         currentlyEating before ∖ {[phil entry]}
       else currentlyEating before) ∧
    (event entry ∈ ["TRY"; "ACQUIRE"; "RELEASE"; "TIMEOUT"] → after = before).
Proof.
  intros Hn. unfold analyzeLog. rewrite !decide_True by done.
  split.
  { eexists. split; [reflexivity|]. cbn [analyze_from].
    split; [intros j; apply zeros_lookup_all|done]. }
  eexists _, _. split; [reflexivity|]. split; [reflexivity|].
  rewrite analyze_from_snoc. simpl.
  set (before := analyze_from n 0 log _).
  assert (∀ j, 0 ≤ j < n →
            mealsPerPhilosopher before !! j = Some (Num (meals_of j log)))
    as Hmeals.
  { intros j Hj. subst before.
    erewrite analyze_from_meals; [|by apply zeros_lookup]. done. }
  split; [|split; [|split; [|split]]].
  - intros j Hj. split; [by apply Hmeals|].
    erewrite analyze_entry_meals by (by apply Hmeals).
    by rewrite meals_of_singleton.
  - destruct (analyze_entry_violations n (length log) entry before)
      as (new & Heq & Hidx & Hiff).
    exists new. split; [done|]. split; [done|]. split.
    + intros Hpos Hi. rewrite Hiff, left_neighbor, right_neighbor by done.
      simpl. by rewrite !bool_decide_eq_true.
    + rewrite analyze_entry_violations_exact in Heq.
      symmetry. by apply app_inv_head in Heq.
  - destruct (analyze_entry_sequence n (length log) entry before)
      as (new & Heq & Hidx & Hiff).
    exists new. split; [done|]. split; [done|]. split; [done|].
    rewrite analyze_entry_sequence_exact in Heq.
    symmetry. by apply app_inv_head in Heq.
  - apply analyze_entry_eating.
  - intros Hev. apply analyze_entry_other.
    + intros Heq. rewrite Heq in Hev.
      repeat (apply elem_of_cons in Hev as [Hev|Hev]; [discriminate|]).
      by apply elem_of_nil in Hev.
    + intros Heq. rewrite Heq in Hev.
      repeat (apply elem_of_cons in Hev as [Hev|Hev]; [discriminate|]).
      by apply elem_of_nil in Hev.
Qed.

Lemma analyzeLog_spec_witness :
  let start p := mkEntry None (JStr "naive") 0 p "EAT_START" [Num p; Num (p + 1)] in
  let entry := mkEntry None (JStr "naive") 1 0 "EAT_END" [Num 0; Num 1] in
  (∃ first, analyzeLog [] 5 = inr first ∧
            mutualExclusionViolations first = [] ∧
            sequenceErrors first = [] ∧
            currentlyEating first = ∅) ∧
  ∃ before after,
    analyzeLog [start 0; start 1] 5 = inr before ∧
    analyzeLog ([start 0; start 1] ++ [entry]) 5 = inr after ∧
    mealsPerPhilosopher before !! 0 = Some (Num 0) ∧
    mealsPerPhilosopher after !! 0 = Some (Num 1) ∧
    mealsPerPhilosopher after !! 1 = Some (Num 0) ∧
    currentlyEating after = currentlyEating before ∖ {[0]}.
Proof.
  intros start entry.
  destruct (analyzeLog_spec [start 0; start 1] entry 5 ltac:(lia))
    as ((first & Hf & _ & Hseq & Hviol & Hset) &
        before & after & Hb & Ha & Hmeals & _ & _ & Heating & _).
  split; [exists first; by repeat split|].
  exists before, after. split; [exact Hb|]. split; [exact Ha|].
  destruct (Hmeals 0 ltac:(lia)) as [Hb0 Ha0].
  destruct (Hmeals 1 ltac:(lia)) as [_ Ha1].
  split; [exact Hb0|]. split; [exact Ha0|]. split; [exact Ha1|exact Heating].
Defined.

(** Philosopher 1 starts to eat while philosopher 0 eats: one violation, at
    index 1, and no sequence error. *)
Example analyzeLog_neighbors_eating :
  let start p := mkEntry None (JStr "naive") 0 p "EAT_START" [Num p; Num (p + 1)] in
  ∃ results,
    analyzeLog [start 0; start 1] 5 = inr results ∧
    mutualExclusionViolations results =
      [{| index := 1;
          error := "Philosopher 1 started eating while neighbor 0 is eating" |}] ∧
    sequenceErrors results = [] ∧
    elements (currentlyEating results) = [1; 0].
Proof. intros start. eexists. split; [reflexivity|]. by vm_compute. Qed.

(** ** startNaive *)

Section Writes.
Context `{Host}.
Implicit Types (w : World) (r : Z) (fs : list jsnum).

Lemma writes_nothing r fs w : writes r fs w w [].
Proof. exists []. by rewrite app_nil_r. Qed.

Lemma writes_trans r fs w1 w2 w3 evs1 evs2 :
  writes r fs w1 w2 evs1 → writes r fs w2 w3 evs2 →
  writes r fs w1 w3 (evs1 ++ evs2).
Proof.
  intros (n1 & E1 & <- & F1) (n2 & E2 & <- & F2). exists (n1 ++ n2).
  rewrite E2, E1, <- app_assoc, fmap_app. split; [done|]. split; [done|].
  by apply Forall_app.
Qed.

Lemma writes_log r fs table0 g ev :
  writes r fs {| table := table0; globals := g |}
         {| table := table0; globals := log r ev fs g |} [ev].
Proof. eexists [_]. split; [reflexivity|]. split; [done|]. by repeat constructor. Qed.

Lemma writes_appended r fs w w' evs :
  writes r fs w w' evs →
  event <$> appended w w' = evs ∧
  Forall (λ e, phil e = r ∧ forks e = fs) (appended w w').
Proof.
  intros (new & E & <- & F). unfold appended.
  by rewrite E, drop_app_length.
Qed.
End Writes.

Section NaiveTurns.
Context `{Host}.
Implicit Types (w : World) (r i count : Z) (fs : list jsnum)
               (this : Philosopher.obj).

Lemma call_fork_acquire x r fs w :
  match (Philosopher.call_fork x (Fork.acquire r fs) w).2 with
  | Returned =>
      writes r fs w (Philosopher.call_fork x (Fork.acquire r fs) w).1
             ["TRY"; "ACQUIRE"]
  | Awaiting _ _ =>
      writes r fs w (Philosopher.call_fork x (Fork.acquire r fs) w).1 ["TRY"]
  | Thrown _ => True
  end.
Proof.
  unfold Philosopher.call_fork.
  destruct (js_slot (table w) x) as [k|]; [|done].
  destruct (table w !! k) as [fork|]; [|done].
  unfold Fork.acquire, Fork.acquire_check. destruct w as [tb g].
  case_decide; simpl.
  - eexists [_; _]. simpl. rewrite <- app_assoc.
    split; [reflexivity|]. split; [done|]. by repeat constructor.
  - eexists [_]. split; [reflexivity|]. split; [done|]. by repeat constructor.
Qed.

Lemma call_fork_resume x r fs waitTime w :
  match (Philosopher.call_fork x (Fork.acquire_resume r fs waitTime) w).2 with
  | Returned =>
      writes r fs w
        (Philosopher.call_fork x (Fork.acquire_resume r fs waitTime) w).1
        ["ACQUIRE"]
  | Awaiting _ _ =>
      writes r fs w
        (Philosopher.call_fork x (Fork.acquire_resume r fs waitTime) w).1 []
  | Thrown _ => True
  end.
Proof.
  unfold Philosopher.call_fork.
  destruct (js_slot (table w) x) as [k|]; [|done].
  destruct (table w !! k) as [fork|]; [|done].
  unfold Fork.acquire_resume, Fork.acquire_check. destruct w as [tb g].
  case_decide; simpl.
  - eexists [_]. split; [reflexivity|]. split; [done|]. by repeat constructor.
  - exists []. by rewrite app_nil_r.
Qed.

Lemma call_release_writes x r fs w :
  match (Philosopher.call_release x r fs w).2 with
  | Normal => writes r fs w (Philosopher.call_release x r fs w).1 ["RELEASE"]
  | Throw _ => True
  end.
Proof.
  unfold Philosopher.call_release.
  destruct (js_slot (table w) x) as [k|]; [|done].
  destruct (table w !! k) as [fork|]; [|done].
  unfold Fork.release. destruct w as [tb g]. case_decide; simpl; [done|].
  eexists [_]. split; [reflexivity|]. split; [done|]. by repeat constructor.
Qed.

Lemma turn_ok_after count r fs evs todo w w1 res :
  writes r fs w w1 evs → turn_ok count r fs todo w1 res →
  turn_ok count r fs (evs ++ todo) w res.
Proof.
  unfold turn_ok. intros Hw. destruct res as [w2 [|wt s|e]]; simpl; [| |done].
  - intros Hw2. by eapply writes_trans.
  - intros (evs2 & Hw2 & <-). exists (evs ++ evs2).
    split; [by eapply writes_trans|]. by rewrite <- app_assoc.
Qed.

Lemma cycles_pos k : 0 < k → cycles k = naive_cycle ++ cycles (k - 1).
Proof.
  intros Hk. unfold cycles.
  replace (Z.to_nat k) with (S (Z.to_nat (k - 1))) by lia. reflexivity.
Qed.

Lemma cycles_nonpos k : k ≤ 0 → cycles k = [].
Proof. intros Hk. unfold cycles. by replace (Z.to_nat k) with 0%nat by lia. Qed.

Lemma first_fork_acquire_ok this count i w :
  let fs := [Philosopher.f1 this; Philosopher.f2 this] in
  turn_ok count (Philosopher.id this) fs
    (naive_cycle ++ cycles (count - i - 1)) w
    (Philosopher.first_fork this i (Fork.acquire (Philosopher.id this) fs) w).
Proof.
  intros fs. unfold Philosopher.first_fork, turn_ok. fold fs.
  pose proof (call_fork_acquire (Philosopher.f1 this) (Philosopher.id this) fs w)
    as Hc.
  destruct (Philosopher.call_fork _ _ w) as [w' [|wt s|e]]; simpl in *; [| |done].
  - by exists ["TRY"; "ACQUIRE"].
  - by exists ["TRY"].
Qed.

Lemma first_fork_resume_ok this count i waitTime w :
  let fs := [Philosopher.f1 this; Philosopher.f2 this] in
  turn_ok count (Philosopher.id this) fs
    (remaining count (Philosopher.AcquiringFirst i waitTime)) w
    (Philosopher.first_fork this i
       (Fork.acquire_resume (Philosopher.id this) fs waitTime) w).
Proof.
  intros fs. unfold Philosopher.first_fork, turn_ok. fold fs.
  pose proof (call_fork_resume (Philosopher.f1 this) (Philosopher.id this) fs
                waitTime w) as Hc.
  destruct (Philosopher.call_fork _ _ w) as [w' [|wt s|e]]; simpl in *; [| |done].
  - by exists ["ACQUIRE"].
  - by exists [].
Qed.

Lemma second_fork_acquire_ok this count i w :
  let fs := [Philosopher.f1 this; Philosopher.f2 this] in
  turn_ok count (Philosopher.id this) fs
    (remaining count (Philosopher.AcquiredFirst i)) w
    (Philosopher.second_fork this i (Fork.acquire (Philosopher.id this) fs) w).
Proof.
  intros fs. unfold Philosopher.second_fork, turn_ok. fold fs.
  pose proof (call_fork_acquire (Philosopher.f2 this) (Philosopher.id this) fs w)
    as Hc.
  destruct (Philosopher.call_fork _ _ w) as [w' [|wt s|e]]; simpl in *; [| |done].
  - by exists ["TRY"; "ACQUIRE"].
  - by exists ["TRY"].
Qed.

Lemma second_fork_resume_ok this count i waitTime w :
  let fs := [Philosopher.f1 this; Philosopher.f2 this] in
  turn_ok count (Philosopher.id this) fs
    (remaining count (Philosopher.AcquiringSecond i waitTime)) w
    (Philosopher.second_fork this i
       (Fork.acquire_resume (Philosopher.id this) fs waitTime) w).
Proof.
  intros fs. unfold Philosopher.second_fork, turn_ok. fold fs.
  pose proof (call_fork_resume (Philosopher.f2 this) (Philosopher.id this) fs
                waitTime w) as Hc.
  destruct (Philosopher.call_fork _ _ w) as [w' [|wt s|e]]; simpl in *; [| |done].
  - by exists ["ACQUIRE"].
  - by exists [].
Qed.

Lemma naive_loop_ok this count i w :
  turn_ok count (Philosopher.id this)
    [Philosopher.f1 this; Philosopher.f2 this]
    (cycles (count - i)) w (Philosopher.naive_loop this count i w).
Proof.
  unfold Philosopher.naive_loop. case_decide as Hi.
  - rewrite cycles_pos by lia. apply first_fork_acquire_ok.
  - rewrite cycles_nonpos by lia. apply writes_nothing.
Qed.

(** Every turn of [startNaive] logs the next events of the cycle. *)
Lemma naive_resume_ok this count s w :
  turn_ok count (Philosopher.id this)
    [Philosopher.f1 this; Philosopher.f2 this]
    (remaining count s) w (Philosopher.naive_resume this count s w).
Proof.
  destruct s as [i wt|i|i wt|i|i]; simpl Philosopher.naive_resume.
  - apply first_fork_resume_ok.
  - apply second_fork_acquire_ok.
  - apply second_fork_resume_ok.
  - unfold turn_ok. simpl. exists ["EAT_START"]. split; [|done].
    destruct w as [tb g]. apply writes_log.
  - set (fs := [Philosopher.f1 this; Philosopher.f2 this]).
    set (w1 := {| table := table w;
                  globals := Philosopher.log this "EAT_END" (globals w) |}).
    assert (writes (Philosopher.id this) fs w w1 ["EAT_END"]) as H1.
    { destruct w as [tb g]. apply writes_log. }
    pose proof (call_release_writes (Philosopher.f1 this) (Philosopher.id this)
                  fs w1) as H2.
    destruct (Philosopher.call_release (Philosopher.f1 this) _ fs w1)
      as [w2 [|e2]]; simpl in H2; [|done].
    pose proof (call_release_writes (Philosopher.f2 this) (Philosopher.id this)
                  fs w2) as H3.
    destruct (Philosopher.call_release (Philosopher.f2 this) _ fs w2)
      as [w3 [|e3]]; simpl in H3; [|done].
    change (remaining count (Philosopher.Eating i))
      with (["EAT_END"] ++ ["RELEASE"] ++ ["RELEASE"] ++ cycles (count - i - 1)).
    eapply turn_ok_after; [exact H1|].
    eapply turn_ok_after; [exact H2|].
    eapply turn_ok_after; [exact H3|].
    replace (count - i - 1) with (count - (i + 1)) by lia.
    apply naive_loop_ok.
Qed.
End NaiveTurns.

Section NaiveRuns.
Context `{Host}.
Implicit Types (w : World) (this : Philosopher.obj) (count : Z).

Lemma drive_thrown {W S} (resume : S → W → W * Turn S) others (w : W) e :
  drive resume others (w, Thrown e) = ([], (w, Thrown e)).
Proof. by destruct others. Qed.

(** A run that returns has logged, from each suspension point on, exactly
    what remained. *)
Lemma drive_naive_written this count others : ∀ w r waits w',
  drive (Philosopher.naive_resume this count) others (w, r)
    = (waits, (w', Returned)) →
  let new := written (Philosopher.naive_resume this count) appended others
                     (w, r) in
  event <$> new =
    match r with Awaiting _ s => remaining count s | _ => [] end ∧
  Forall (λ e, phil e = Philosopher.id this ∧
               forks e = [Philosopher.f1 this; Philosopher.f2 this]) new.
Proof.
  induction others as [|o others IH]; intros w r waits w' Hrun new; subst new.
  - destruct r; simpl in *; by simplify_eq.
  - destruct r as [|wt s|e]; simpl in *; [done| |done].
    pose proof (naive_resume_ok this count s (o w)) as Hturn.
    destruct (Philosopher.naive_resume this count s (o w)) as [w2 r2] eqn:Hres.
    destruct (drive _ others (w2, r2)) as [waits2 final] eqn:Hd.
    simplify_eq. destruct (IH _ _ _ _ Hd) as [IHev IHown].
    unfold turn_ok in Hturn. simpl in *.
    destruct r2 as [|wt2 s2|e2].
    + apply writes_appended in Hturn as [Hev Hown].
      rewrite fmap_app, Hev, IHev, app_nil_r. split; [done|].
      by apply Forall_app.
    + destruct Hturn as (evs & Hw & <-).
      apply writes_appended in Hw as [Hev Hown].
      rewrite fmap_app, Hev, IHev. split; [done|]. by apply Forall_app.
    + by rewrite drive_thrown in Hd.
Qed.
End NaiveRuns.

(** X2.  The provided strategy: a call of [startNaive(count)] that completes has
    logged exactly [count] eat cycles (TRY, ACQUIRE, TRY, ACQUIRE, EAT_START,
    EAT_END, RELEASE, RELEASE), each entry under its own identity and with
    its two forks, whatever the other tasks did during its suspensions. *)
Lemma startNaive_completes_after_count_cycles `{Host}
    (this : Philosopher.obj) (count : Z) (others : list (World → World))
    (w w' : World) (waits : list Wait) :
  naive_run this count others w = (waits, (w', Returned)) →
  event <$> naive_written this count others w = cycles count ∧
  Forall (λ e, phil e = Philosopher.id this ∧
               forks e = [Philosopher.f1 this; Philosopher.f2 this])
         (naive_written this count others w).
Proof.
  unfold naive_run, naive_written, Philosopher.startNaive. intros Hrun.
  pose proof (naive_loop_ok this count 0 w) as Hturn.
  destruct (Philosopher.naive_loop this count 0 w) as [w1 r1] eqn:Hfirst.
  destruct (drive_naive_written this count others _ _ _ _ Hrun) as [Hev Hown].
  unfold turn_ok in Hturn. simpl in *. rewrite Z.sub_0_r in Hturn.
  destruct r1 as [|wt s|e].
  - apply writes_appended in Hturn as [Hev1 Hown1].
    rewrite fmap_app, Hev1, Hev, app_nil_r. split; [done|]. by apply Forall_app.
  - destruct Hturn as (evs & Hw & <-).
    apply writes_appended in Hw as [Hev1 Hown1].
    rewrite fmap_app, Hev1, Hev. split; [done|]. by apply Forall_app.
  - by rewrite drive_thrown in Hrun.
Qed.

(** Philosopher 0 alone at a table of five forks eats twice. *)
Example startNaive_alone_two_meals :
  let forks := Fork.new <$> [0; 1; 2; 3; 4] in
  let w := {| table := forks; globals := @module_init sample_host |} in
  let this := Philosopher.new 0 forks in
  (@naive_run sample_host this 2 (replicate 6 id) w).2.2 = Returned ∧
  (@naive_run sample_host this 2 (replicate 6 id) w).1
    = [Settled; Settled; Timer 1; Settled; Settled; Timer 1] ∧
  event <$> @naive_written sample_host this 2 (replicate 6 id) w
    = naive_cycle ++ naive_cycle.
Proof. vm_compute. done. Qed.

(** ** The strategies left to implement *)

(** C1.  [startAsym], [startConductor] and [startSimultaneous] complete in
    their first turn for every meal count, without a suspension and without
    appending an entry: the caller has logged no EAT_START and no EAT_END,
    and [analyzeLog] counts no meal for it, also when [count] is positive. *)
Theorem stub_strategies_eat_nothing `{Host} (this : Philosopher.obj)
    (count : Z) (conductor : Conductor.obj) (w : World) :
  let asym := Philosopher.startAsym this count w in
  let cond := Philosopher.startConductor this count conductor w in
  let simu := Philosopher.startSimultaneous this count w in
  (asym.2 = Returned ∧ cond.2 = Returned ∧ simu.2 = Returned) ∧
  (appended w asym.1 = [] ∧ appended w cond.1.1 = [] ∧ appended w simu.1 = []) ∧
  (∀ j, meals_of j (appended w asym.1) = 0 ∧
        meals_of j (appended w cond.1.1) = 0 ∧
        meals_of j (appended w simu.1) = 0).
Proof.
  intros asym cond simu. subst asym cond simu. simpl.
  assert (appended w w = []) as Hnone.
  { unfold appended. apply drop_all. }
  rewrite Hnone. done.
Qed.

(** With one meal asked for, the call of [startAsym] completes and the
    analyzer finds no meal of philosopher 0, where [startNaive] logs one. *)
Example startAsym_one_meal :
  let this := Philosopher.new 0 five_forks in
  let w := @fresh_world sample_host in
  let asym := Philosopher.startAsym this 1 w in
  asym = (w, Returned) ∧
  (∃ results, analyzeLog (eventLog (globals asym.1)) 5 = inr results ∧
              mealsPerPhilosopher results !! 0 = Some (Num 0)) ∧
  (@naive_run sample_host this 1 (replicate 3 id) w).2.2 = Returned ∧
  meals_of 0 (@naive_written sample_host this 1 (replicate 3 id) w) = 1.
Proof.
  intros this w asym. split; [reflexivity|].
  split; [eexists; split; [reflexivity|by vm_compute]|].
  by vm_compute.
Qed.

(** C4.  [startAsym] calls [acquire] on no fork: for every philosopher and
    every meal count the call returns in its first turn with every fork and
    the log as they were, so no fork is taken and no TRY or ACQUIRE is logged,
    in either order. *)
Theorem startAsym_acquires_no_fork `{Host} (this : Philosopher.obj)
    (count : Z) (w : World) :
  Philosopher.startAsym this count w = (w, Returned) ∧
  table (Philosopher.startAsym this count w).1 = table w ∧
  eventLog (globals (Philosopher.startAsym this count w).1)
    = eventLog (globals w) ∧
  filter (λ e, event e = "TRY" ∨ event e = "ACQUIRE")
         (appended w (Philosopher.startAsym this count w).1) = [].
Proof.
  simpl. do 3 (split; [reflexivity|]). unfold appended.
  by rewrite drop_all.
Qed.

(** Philosophers 0 (even) and 1 (odd) at five free forks, one meal: after
    [startAsym] all forks are free and the log is empty; the first turn of
    [startNaive] of philosopher 0 takes fork 0 and logs TRY and ACQUIRE. *)
Example startAsym_even_and_odd :
  let w := @fresh_world sample_host in
  let even := Philosopher.new 0 five_forks in
  let odd := Philosopher.new 1 five_forks in
  (Philosopher.f1 even, Philosopher.f2 even) = (Num 0, Num 1) ∧
  (Philosopher.f1 odd, Philosopher.f2 odd) = (Num 1, Num 2) ∧
  Philosopher.startAsym even 1 w = (w, Returned) ∧
  Philosopher.startAsym odd 1 w = (w, Returned) ∧
  Fork.holder <$> table w = [None; None; None; None; None] ∧
  eventLog (globals w) = [] ∧
  (let naive := @Philosopher.startNaive sample_host even 1 w in
   Fork.holder <$> table naive.1 = [Some 0; None; None; None; None] ∧
   event <$> eventLog (globals naive.1) = ["TRY"; "ACQUIRE"]).
Proof. vm_compute. done. Qed.

(** C5.  [requestSeat] returns in its first turn whatever the number of
    seats, takes no seat and enqueues nobody; [leaveSeat] changes nothing.
    Any number of requests in a row are all granted at once. *)
Theorem conductor_seats_everyone (this : Conductor.obj) (k : nat) :
  Conductor.requestSeat this = (this, Returned) ∧
  Conductor.leaveSeat this = this ∧
  Nat.iter k (λ c, (Conductor.requestSeat c).1) this = this ∧
  Conductor.seats (Nat.iter k (λ c, (Conductor.requestSeat c).1) this)
    = Conductor.seats this ∧
  Conductor.waiting (Nat.iter k (λ c, (Conductor.requestSeat c).1) this)
    = Conductor.waiting this.
Proof.
  assert (Nat.iter k (λ c, (Conductor.requestSeat c).1) this = this) as Hk.
  { induction k as [|k IH]; [done|]. rewrite Nat.iter_succ, IH. done. }
  rewrite Hk. done.
Qed.

(** A conductor with no seat lets a caller in; one with a single seat lets
    two callers in, with nobody leaving in between. *)
Example conductor_over_capacity :
  Conductor.requestSeat (Conductor.new 0) = (Conductor.new 0, Returned) ∧
  (let c1 := (Conductor.requestSeat (Conductor.new 1)).1 in
   Conductor.requestSeat c1 = (Conductor.new 1, Returned) ∧
   Conductor.waiting c1 = []).
Proof. done. Qed.

(** * Further properties of the code *)

(** ** The ring of philosophers and forks *)

Lemma succ_mod_ring (n i k : Z) :
  0 ≤ i < n → 0 ≤ k < n → ((i + 1) `mod` n = k ↔ i = (k - 1) `mod` n).
Proof.
  intros Hi Hk.
  destruct (decide (i + 1 = n)) as [Hlast|Hlast].
  - rewrite Hlast, Z_mod_same_full.
    destruct (decide (k = 0)) as [->|Hk0].
    + replace (0 - 1) with (n - 1 + -1 * n) by lia.
      rewrite Z.mod_add, Z.mod_small by lia. split; intros _; lia.
    + rewrite Z.mod_small by lia. split; intros ?; lia.
  - rewrite (Z.mod_small (i + 1)) by lia.
    destruct (decide (k = 0)) as [->|Hk0].
    + replace (0 - 1) with (n - 1 + -1 * n) by lia.
      rewrite Z.mod_add, Z.mod_small by lia. split; intros ?; lia.
    + rewrite Z.mod_small by lia. split; intros ?; lia.
Qed.

(** X1.  The constructor of [Philosopher] lays the philosophers 0..n-1 on a
    ring: philosopher [i] has left fork [i] and right fork [(i + 1) mod n],
    both slots of the array; its right fork is the left fork of philosopher
    [(i + 1) mod n]; fork [k] is the left fork of philosopher [k] only and
    the right fork of philosopher [(k - 1) mod n] only; with two forks or
    more the two forks of a philosopher differ. *)
Theorem philosopher_ring (forks : list Fork.obj) (i k : Z) :
  let n := Z.of_nat (length forks) in
  let p := Philosopher.new i forks in
  0 ≤ i < n → 0 ≤ k < n →
  Philosopher.f1 p = Num i ∧
  Philosopher.f2 p = Num ((i + 1) `mod` n) ∧
  Philosopher.f2 p = Philosopher.f1 (Philosopher.new ((i + 1) `mod` n) forks) ∧
  js_slot forks (Philosopher.f1 p) = Some (Z.to_nat i) ∧
  js_slot forks (Philosopher.f2 p) = Some (Z.to_nat ((i + 1) `mod` n)) ∧
  (Philosopher.f1 p = Num k ↔ i = k) ∧
  (Philosopher.f2 p = Num k ↔ i = (k - 1) `mod` n) ∧
  (1 < n → Philosopher.f1 p ≠ Philosopher.f2 p).
Proof.
  intros n p Hi Hk. subst p. unfold Philosopher.new. simpl. fold n.
  assert (0 ≤ (i + 1) `mod` n < n) as Hnext by (apply Z.mod_pos_bound; lia).
  assert (js_rem i n = Num i) as H1.
  { unfold js_rem. rewrite decide_False by lia.
    by rewrite Z.rem_mod_nonneg, Z.mod_small by lia. }
  assert (js_rem (i + 1) n = Num ((i + 1) `mod` n)) as H2.
  { unfold js_rem. rewrite decide_False by lia.
    by rewrite Z.rem_mod_nonneg by lia. }
  assert (js_rem ((i + 1) `mod` n) n = Num ((i + 1) `mod` n)) as H3.
  { unfold js_rem. rewrite decide_False by lia.
    by rewrite Z.rem_mod_nonneg, Z.mod_small by lia. }
  rewrite H1, H2, H3. do 3 (split; [done|]).
  split; [unfold js_slot; fold n; by rewrite decide_True by lia|].
  split; [unfold js_slot; fold n; by rewrite decide_True by lia|].
  split; [split; [by intros [= ->]|by intros ->]|].
  split.
  - rewrite <- (succ_mod_ring n i k) by done.
    split; [by intros [= ->]|by intros ->].
  - intros Hn [= Heq]. symmetry in Heq.
    apply (succ_mod_ring n i i) in Heq; [|done..].
    destruct (decide (i = 0)) as [->|Hi0].
    + replace (0 - 1) with (n - 1 + -1 * n) in Heq by lia.
      rewrite Z.mod_add, Z.mod_small in Heq by lia. lia.
    + rewrite Z.mod_small in Heq by lia. lia.
Qed.

Lemma philosopher_ring_witness :
  let p4 := Philosopher.new 4 five_forks in
  Philosopher.f1 p4 = Num 4 ∧ Philosopher.f2 p4 = Num 0 ∧
  Philosopher.f2 p4 = Philosopher.f1 (Philosopher.new 0 five_forks).
Proof.
  intros p4.
  destruct (philosopher_ring five_forks 4 0 ltac:(simpl; lia) ltac:(simpl; lia))
    as (H1 & H2 & H3 & _).
  split; [exact H1|]. split; [exact H2|exact H3].
Defined.

(** ** Runs of [startNaive] and of [acquire] *)

Lemma startNaive_completes_after_count_cycles_witness :
  let this := Philosopher.new 0 five_forks in
  let w := @fresh_world sample_host in
  event <$> @naive_written sample_host this 2 (replicate 6 id) w = cycles 2 ∧
  Forall (λ e, phil e = 0 ∧ forks e = [Num 0; Num 1])
         (@naive_written sample_host this 2 (replicate 6 id) w).
Proof.
  intros this w.
  eapply (@startNaive_completes_after_count_cycles sample_host this 2
            (replicate 6 id) w).
  vm_compute. reflexivity.
Defined.

(** X3.  [startNaive(count)] with [count <= 0] returns in its first turn and
    touches nothing.  With a positive [count], a philosopher whose left fork
    is no slot of the array (as for every philosopher built over an empty
    array, whose forks are both NaN) throws a TypeError in its first turn,
    before anything is logged. *)
Theorem startNaive_edges `{Host} (this : Philosopher.obj) (count : Z) (w : World) :
  (count ≤ 0 → Philosopher.startNaive this count w = (w, Returned)) ∧
  (0 < count → js_slot (table w) (Philosopher.f1 this) = None →
   Philosopher.startNaive this count w = (w, Thrown TypeError)) ∧
  (∀ i, Philosopher.f1 (Philosopher.new i []) = NaN ∧
        Philosopher.f2 (Philosopher.new i []) = NaN ∧
        js_slot (table w) (Philosopher.f1 (Philosopher.new i [])) = None).
Proof.
  unfold Philosopher.startNaive, Philosopher.naive_loop.
  split; [|split].
  - intros Hc. by rewrite decide_False by lia.
  - intros Hc Hslot. rewrite decide_True by lia.
    unfold Philosopher.first_fork, Philosopher.call_fork. by rewrite Hslot.
  - done.
Qed.

Lemma startNaive_edges_witness :
  let w := {| table := []; globals := @module_init sample_host |} in
  @Philosopher.startNaive sample_host (Philosopher.new 0 []) 0 w = (w, Returned) ∧
  @Philosopher.startNaive sample_host (Philosopher.new 0 []) 3 w
    = (w, Thrown TypeError).
Proof.
  intros w.
  destruct (@startNaive_edges sample_host (Philosopher.new 0 []) 0 w)
    as (Hzero & _ & _).
  destruct (@startNaive_edges sample_host (Philosopher.new 0 []) 3 w)
    as (_ & Hthrow & _).
  split; [apply Hzero; lia|apply Hthrow; [lia|reflexivity]].
Defined.

(** X6.  On a free fork, [acquire] by [r] followed by [release] by [r] gives
    the free fork back (state 0, no holder) and appends TRY, ACQUIRE and
    RELEASE; in between, [release] by anybody else throws and names [r] as
    the holder; a second [release] by [r] throws and names null. *)
Theorem acquire_release_round_trip `{Host} (r r' : Z) (fs : list jsnum)
    (this : Fork.obj) (g : Globals) :
  Fork.state this = 0 → r' ≠ r →
  let taken := Fork.acquire r fs this g in
  let freed := Fork.release r fs taken.1.1 taken.1.2 in
  taken.2 = Returned ∧
  Fork.holder taken.1.1 = Some r ∧
  (Fork.release r' fs taken.1.1 taken.1.2).2
    = Throw (OwnershipError (Fork.release_message r' (Some r))) ∧
  freed.2 = Normal ∧
  freed.1.1 = {| Fork.id := Fork.id this; Fork.state := 0; Fork.holder := None |} ∧
  event <$> eventLog freed.1.2
    = (event <$> eventLog g) ++ ["TRY"; "ACQUIRE"; "RELEASE"] ∧
  (Fork.release r fs freed.1.1 freed.1.2).2
    = Throw (OwnershipError (Fork.release_message r None)).
Proof.
  intros Hfree Hne taken freed. subst freed taken.
  unfold Fork.acquire. rewrite acquire_check_free by done. cbn [fst snd].
  rewrite release_not_holder by (simpl; congruence).
  rewrite release_holder by done. cbn [fst snd].
  rewrite release_not_holder by done. cbn [fst snd].
  do 5 (split; [done|]). split; [|done].
  simpl. rewrite !fmap_app, <- !app_assoc. done.
Qed.

Lemma acquire_release_round_trip_witness :
  let g := @module_init sample_host in
  let taken := @Fork.acquire sample_host 3 [Num 3; Num 4] (Fork.new 3) g in
  let freed := @Fork.release sample_host 3 [Num 3; Num 4] taken.1.1 taken.1.2 in
  freed.1.1 = Fork.new 3 ∧
  event <$> eventLog freed.1.2 = ["TRY"; "ACQUIRE"; "RELEASE"].
Proof.
  intros g taken freed.
  destruct (@acquire_release_round_trip sample_host 3 2 [Num 3; Num 4]
              (Fork.new 3) g eq_refl ltac:(lia))
    as (_ & _ & _ & _ & Hfork & Hlog & _).
  split; [exact Hfork|exact Hlog].
Defined.

Section AcquireBlocked.
Context `{Host}.

Lemma drive_acquire_blocked r fs others : ∀ k this g,
  Fork.state this ≠ 0 →
  Forall (λ o, ∀ fg, Fork.state fg.1 ≠ 0 → Fork.state (o fg).1 ≠ 0) others →
  let run :=
    drive (λ waitTime fg, Fork.acquire_resume r fs waitTime fg.1 fg.2) others
          (Fork.acquire_check r fs (waitTime_after k) this g) in
  length run.1 = S (length others) ∧
  run.2 = (foldl (λ fg o, o fg) (this, g) others,
           Awaiting (Timer (waitTime_after (k + length others)))
                    (waitTime_after (k + length others))).
Proof.
  induction others as [|o others IH]; intros k this g Hs Hall run; subst run.
  - rewrite acquire_check_taken by done. simpl. by rewrite Nat.add_0_r.
  - rewrite acquire_check_taken by done. simpl.
    unfold Fork.acquire_resume. rewrite <- waitTime_after_S.
    inversion Hall as [|?? Ho Hrest]; subst.
    specialize (IH (S k) (o (this, g)).1 (o (this, g)).2 (Ho (this, g) Hs) Hrest).
    destruct (drive _ others _) as [waits final]. simpl in *.
    destruct IH as [IHlen IHrun]. rewrite IHlen, IHrun. split; [done|].
    replace (k + S (length others))%nat with (S k + length others)%nat by lia.
    by destruct (o (this, g)).
Qed.
End AcquireBlocked.

(** X7.  As long as the other tasks leave the fork taken, a call of [acquire]
    does not return: after [m] suspensions it has waited [m + 1] times, is
    suspended on a timer of min(2^m, 1000) ms, and has written nothing but
    its TRY entry: the fork and the globals are what the other tasks made of
    them. *)
Theorem acquire_blocked_while_taken `{Host} (r : Z) (fs : list jsnum)
    (others : list (Fork.obj * Globals → Fork.obj * Globals))
    (this : Fork.obj) (g : Globals) :
  Fork.state this ≠ 0 →
  Forall (λ o, ∀ fg, Fork.state fg.1 ≠ 0 → Fork.state (o fg).1 ≠ 0) others →
  let run := acquire_drive r fs others this g in
  let wait := Z.min (2 ^ Z.of_nat (length others)) 1000 in
  length run.1 = S (length others) ∧
  run.2 = (foldl (λ fg o, o fg) (this, log r "TRY" fs g) others,
           Awaiting (Timer wait) wait).
Proof.
  intros Hs Hall run wait. subst run wait. unfold acquire_drive, Fork.acquire.
  change 1 with (waitTime_after 0).
  destruct (drive_acquire_blocked r fs others 0 this (log r "TRY" fs g) Hs Hall)
    as [Hlen Hrun].
  split; [exact Hlen|]. rewrite Hrun.
  change (0 + length others)%nat with (length others).
  rewrite waitTime_after_closed. reflexivity.
Qed.

Lemma acquire_blocked_while_taken_witness :
  let this := {| Fork.id := 0; Fork.state := 1; Fork.holder := Some 3 |} in
  let g := @module_init sample_host in
  (@acquire_drive sample_host 7 [Num 0; Num 1] (replicate 12 id) this g).2
    = ((this, @log sample_host 7 "TRY" [Num 0; Num 1] g),
       Awaiting (Timer 1000) 1000).
Proof.
  intros this g.
  assert (Fork.state this ≠ 0) as Htaken by (simpl; lia).
  destruct (@acquire_blocked_while_taken sample_host 7 [Num 0; Num 1]
              (replicate 12 id) this g Htaken) as [_ Hrun].
  - apply Forall_replicate. intros fg Hfg. exact Hfg.
  - exact Hrun.
Defined.

(** ** The event log over sequences of calls *)

Section LogCalls.
Context `{Host}.
Implicit Types (g : Globals) (cs : list Call).

Lemma logged_tracks cs : ∀ g,
  log_args <$> eventLog (calls cs g) = logged cs (log_args <$> eventLog g).
Proof.
  induction cs as [|c cs IH]; intros g; [done|].
  rewrite calls_cons. unfold logged. simpl. rewrite IH. unfold logged.
  f_equal. destruct c; simpl; try done. by rewrite fmap_app.
Qed.

Lemma calls_keep_prefix cs : ∀ g,
  Forall (λ c, c ≠ CallClearEventLog) cs →
  eventLog g `prefix_of` eventLog (calls cs g).
Proof.
  induction cs as [|c cs IH]; intros g Hno; [done|].
  inversion Hno as [|?? Hc Hcs]; subst. rewrite calls_cons.
  etrans; [|by apply IH].
  destruct c; simpl; try done. by apply prefix_app_r.
Qed.

Lemma stamped_log philId event forks g :
  (∀ a b, (a ≤ b)%nat → Date_now a ≤ Date_now b) →
  stamped g → stamped (log philId event forks g).
Proof.
  intros Hmono ((origin & Hstart & Horigin) & Hbound & Hsorted).
  assert (Date_now (clock_reads g) ≤ Date_now (S (clock_reads g))) as Hnext
    by (apply Hmono; lia).
  assert (Date_now origin ≤ Date_now (clock_reads g)) as Hsince
    by by apply Hmono.
  split; [|split]; simpl.
  - exists origin. split; [done|lia].
  - apply Forall_app. split.
    + eapply Forall_impl; [exact Hbound|]. simpl. intros e He. lia.
    + apply Forall_singleton. simpl. lia.
  - rewrite fmap_app. apply StronglySorted_app_2; [|done|].
    + intros x1 x2 Hx1 Hx2. apply list_elem_of_singleton in Hx2 as ->.
      apply list_elem_of_fmap in Hx1 as (e & -> & He).
      rewrite Forall_forall in Hbound. simpl. by apply Hbound.
    + repeat constructor.
Qed.

Lemma stamped_calls cs : ∀ g,
  (∀ a b, (a ≤ b)%nat → Date_now a ≤ Date_now b) →
  forallb (λ c, negb (is_startRun c)) cs = true →
  stamped g → stamped (calls cs g).
Proof.
  induction cs as [|c cs IH]; intros g Hmono Hno Hg; [done|].
  simpl in Hno. apply andb_prop in Hno as [Hc Hcs].
  rewrite calls_cons. apply IH; [done..|].
  destruct c; simpl; try done.
  - by apply stamped_log.
  - destruct Hg as (Horigin & _ & _). split; [done|].
    split; simpl; constructor.
Qed.
End LogCalls.

(** X8.  Whatever the calls of [startRun], [setAlgorithm], [log] and
    [clearEventLog], the log holds, in order, the identity, event and forks
    given to the calls of [log] made since the last [clearEventLog]; [startRun]
    and [setAlgorithm] never change the log.  Without a [clearEventLog] the
    entries already in the log stay where they are. *)
Theorem eventLog_tracks_calls `{Host} (cs : list Call) (g : Globals) :
  log_args <$> eventLog (calls cs g) = logged cs (log_args <$> eventLog g) ∧
  (Forall (λ c, c ≠ CallClearEventLog) cs →
   eventLog g `prefix_of` eventLog (calls cs g)) ∧
  (∀ algorithm name,
     eventLog (startRun algorithm g).2 = eventLog g ∧
     eventLog (setAlgorithm name g) = eventLog g).
Proof.
  split; [apply logged_tracks|]. split; [apply calls_keep_prefix|done].
Qed.

Lemma eventLog_tracks_calls_witness :
  let cs := [CallLog 0 "TRY" [Num 0; Num 1]; CallStartRun (JStr "naive");
             CallLog 1 "EAT_START" [Num 1; Num 2]] in
  let g := @log sample_host 4 "RELEASE" [Num 4; Num 0] (@module_init sample_host) in
  log_args <$> eventLog (@calls sample_host cs g)
    = [(4, "RELEASE", [Num 4; Num 0]); (0, "TRY", [Num 0; Num 1]);
       (1, "EAT_START", [Num 1; Num 2])] ∧
  eventLog g `prefix_of` eventLog (@calls sample_host cs g).
Proof.
  intros cs g.
  destruct (@eventLog_tracks_calls sample_host cs g) as (Hargs & Hprefix & _).
  split; [exact Hargs|]. apply Hprefix.
  repeat constructor; discriminate.
Defined.

(** X9.  With a clock that never goes back, the entries logged after a
    [startRun] on an empty log, up to the next [startRun], carry times [t]
    that are not negative and never decrease along the log. *)
Theorem timestamps_sorted `{Host} (algorithm : jsval) (cs : list Call)
    (g : Globals) :
  (∀ a b, (a ≤ b)%nat → Date_now a ≤ Date_now b) →
  forallb (λ c, negb (is_startRun c)) cs = true →
  let g2 := calls cs (startRun algorithm (clearEventLog g)).2 in
  Forall (λ e, 0 ≤ t e) (eventLog g2) ∧
  StronglySorted Z.le (t <$> eventLog g2).
Proof.
  intros Hmono Hno g2.
  assert (stamped g2) as (_ & Hbound & Hsorted).
  { apply stamped_calls; [done..|]. split; [|split]; simpl.
    - exists (clock_reads g). split; [done|lia].
    - constructor.
    - constructor. }
  split; [|done]. eapply Forall_impl; [exact Hbound|]. simpl. intros e He. lia.
Qed.

Lemma timestamps_sorted_witness :
  let cs := [CallLog 0 "TRY" [Num 0; Num 1]; CallSetAlgorithm (JStr "x");
             CallLog 0 "ACQUIRE" [Num 0; Num 1]] in
  let g2 := @calls sample_host cs
              (@startRun sample_host (JStr "naive")
                 (clearEventLog (@module_init sample_host))).2 in
  t <$> eventLog g2 = [5; 10] ∧
  StronglySorted Z.le (t <$> eventLog g2).
Proof.
  intros cs g2.
  destruct (@timestamps_sorted sample_host (JStr "naive") cs
              (@module_init sample_host)) as [_ Hsorted].
  - intros a b Hab. simpl. lia.
  - reflexivity.
  - split; [reflexivity|exact Hsorted].
Defined.

(** ** More on analyzeLog *)

Section AnalyzerReports.
Implicit Types (log : list Entry) (results : Results) (entry : Entry).

Lemma analyze_from_app n log1 : ∀ log2 i results,
  analyze_from n i (log1 ++ log2) results =
    analyze_from n (i + length log1) log2 (analyze_from n i log1 results).
Proof.
  induction log1 as [|e log1 IH]; intros log2 i results; simpl.
  - by rewrite Nat.add_0_r.
  - rewrite IH. f_equal. lia.
Qed.

Lemma sorted_same_index (i : nat) (l : list Report) :
  Forall (λ r, index r = i) l → StronglySorted le (index <$> l).
Proof.
  induction 1 as [|r l Hr Hl IH]; simpl; constructor; [done|].
  rewrite Forall_fmap. eapply Forall_impl; [exact Hl|]. simpl.
  intros r' Hr'. lia.
Qed.

(** The reports that one entry adds say what the entry is. *)
Lemma analyze_entry_reports n i entry results :
  (∃ new,
     mutualExclusionViolations (analyze_entry n i entry results) =
       mutualExclusionViolations results ++ new ∧
     Forall (λ r, index r = i ∧ event entry = "EAT_START" ∧
                  ∃ nb, error r = neighbor_message (phil entry) nb ∧
                        has (currentlyEating results) nb = true ∧
                        (nb = js_rem (phil entry - 1 + n) n ∨
                         nb = js_rem (phil entry + 1) n)) new) ∧
  (∃ new,
     sequenceErrors (analyze_entry n i entry results) =
       sequenceErrors results ++ new ∧
     Forall (λ r, index r = i ∧ event entry = "EAT_END" ∧
                  error r = sequence_message (phil entry) ∧
                  phil entry ∉ currentlyEating results) new).
Proof.
  unfold analyze_entry.
  destruct (String.eqb_spec (event entry) "EAT_START") as [Hs|Hs]; simpl.
  - split; [|exists []; by rewrite app_nil_r].
    destruct (has _ (js_rem (phil entry - 1 + n) n)) eqn:Hl;
      destruct (has _ (js_rem (phil entry + 1) n)) eqn:Hr.
    + eexists [_; _]. rewrite <- app_assoc. split; [reflexivity|].
      repeat constructor; simpl; eauto 10.
    + eexists [_]. split; [reflexivity|]. repeat constructor; simpl; eauto 10.
    + eexists [_]. split; [reflexivity|]. repeat constructor; simpl; eauto 10.
    + exists []. by rewrite app_nil_r.
  - split; [exists []; rewrite app_nil_r;
            by destruct (String.eqb_spec (event entry) "EAT_END")|].
    destruct (String.eqb_spec (event entry) "EAT_END") as [He|He]; simpl.
    + case_bool_decide as Hin; simpl.
      * exists []. by rewrite app_nil_r.
      * eexists [_]. split; [reflexivity|]. by repeat constructor.
    + exists []. by rewrite app_nil_r.
Qed.
End AnalyzerReports.

(** X11.  Every report of [analyzeLog] points at an entry of the log: a
    violation at an EAT_START entry, with a message that names the actor of
    the entry and one of the two neighbours computed for it; a sequence error
    at an EAT_END entry, with a message that names its actor.  Both lists are
    in the order of the log. *)
Theorem analyzeLog_reports_sound (log : list Entry) (n : Z) (results : Results) :
  analyzeLog log n = inr results →
  Forall (λ r, ∃ entry, log !! index r = Some entry ∧
                        event entry = "EAT_START" ∧
                        ∃ nb, error r = neighbor_message (phil entry) nb ∧
                              (nb = js_rem (phil entry - 1 + n) n ∨
                               nb = js_rem (phil entry + 1) n))
         (mutualExclusionViolations results) ∧
  Forall (λ r, ∃ entry, log !! index r = Some entry ∧
                        event entry = "EAT_END" ∧
                        error r = sequence_message (phil entry))
         (sequenceErrors results) ∧
  StronglySorted le (index <$> mutualExclusionViolations results) ∧
  StronglySorted le (index <$> sequenceErrors results).
Proof.
  unfold analyzeLog. case_decide as Hn; [|discriminate]. intros [= <-].
  induction log as [|entry log IH] using rev_ind.
  { simpl. repeat split; constructor. }
  rewrite analyze_from_snoc. simpl.
  set (before := analyze_from n 0 log _) in *.
  destruct IH as (IHv & IHs & IHvo & IHso).
  destruct (analyze_entry_reports n (length log) entry before)
    as [(newv & -> & Hv) (news & -> & Hs)].
  split; [|split; [|split]].
  - apply Forall_app. split.
    + eapply Forall_impl; [exact IHv|]. simpl. intros r (e & He & Hrest).
      exists e. split; [|done]. by apply lookup_app_l_Some.
    + eapply Forall_impl; [exact Hv|]. simpl.
      intros r (-> & Hev & nb & Herr & _ & Hnb).
      exists entry. split; [by apply list_lookup_middle|]. eauto.
  - apply Forall_app. split.
    + eapply Forall_impl; [exact IHs|]. simpl. intros r (e & He & Hrest).
      exists e. split; [|done]. by apply lookup_app_l_Some.
    + eapply Forall_impl; [exact Hs|]. simpl. intros r (-> & Hev & Herr & _).
      exists entry. split; [by apply list_lookup_middle|]. eauto.
  - rewrite fmap_app. apply StronglySorted_app_2; [|done|].
    + intros i1 i2 Hi1 Hi2.
      apply list_elem_of_fmap in Hi1 as (r1 & -> & Hr1).
      apply list_elem_of_fmap in Hi2 as (r2 & -> & Hr2).
      rewrite Forall_forall in IHv, Hv.
      destruct (IHv r1 Hr1) as (e & He & _). apply lookup_lt_Some in He.
      destruct (Hv r2 Hr2) as (-> & _). lia.
    + apply (sorted_same_index (length log)).
      eapply Forall_impl; [exact Hv|]. by intros r (Hr & _).
  - rewrite fmap_app. apply StronglySorted_app_2; [|done|].
    + intros i1 i2 Hi1 Hi2.
      apply list_elem_of_fmap in Hi1 as (r1 & -> & Hr1).
      apply list_elem_of_fmap in Hi2 as (r2 & -> & Hr2).
      rewrite Forall_forall in IHs, Hs.
      destruct (IHs r1 Hr1) as (e & He & _). apply lookup_lt_Some in He.
      destruct (Hs r2 Hr2) as (-> & _). lia.
    + apply (sorted_same_index (length log)).
      eapply Forall_impl; [exact Hs|]. by intros r (Hr & _).
Qed.

Lemma analyzeLog_reports_sound_witness :
  let start p := mkEntry None (JStr "naive") 0 p "EAT_START" [Num p; Num (p + 1)] in
  ∃ results,
    analyzeLog [start 0; start 1] 5 = inr results ∧
    Forall (λ r, ∃ entry, [start 0; start 1] !! index r = Some entry ∧
                          event entry = "EAT_START" ∧
                          ∃ nb, error r = neighbor_message (phil entry) nb ∧
                                (nb = js_rem (phil entry - 1 + 5) 5 ∨
                                 nb = js_rem (phil entry + 1) 5))
           (mutualExclusionViolations results).
Proof.
  intros start. eexists. split; [reflexivity|].
  refine (proj1 (analyzeLog_reports_sound [start 0; start 1] 5 _ _)).
  reflexivity.
Defined.

Section AnalyzerEdges.
Implicit Types (log : list Entry) (results : Results) (entry : Entry).

Lemma meals_of_nonneg j log : 0 ≤ meals_of j log.
Proof. unfold meals_of. lia. Qed.

Lemma analyze_entry_meals_other n i entry results j :
  meals_of j [entry] = 0 →
  mealsPerPhilosopher (analyze_entry n i entry results) !! j =
    mealsPerPhilosopher results !! j.
Proof.
  rewrite meals_of_singleton. case_decide as Hd; [done|]. intros _.
  unfold analyze_entry.
  destruct (String.eqb_spec (event entry) "EAT_START"); [done|].
  destruct (String.eqb_spec (event entry) "EAT_END") as [He|He]; [|done].
  simpl. unfold increment. rewrite lookup_insert_ne; [done|]. tauto.
Qed.

Lemma analyze_entry_meals_NaN n i entry results j :
  mealsPerPhilosopher results !! j = None ∨
  mealsPerPhilosopher results !! j = Some NaN →
  meals_of j [entry] ≠ 0 →
  mealsPerPhilosopher (analyze_entry n i entry results) !! j = Some NaN.
Proof.
  intros Hj. rewrite meals_of_singleton. case_decide as Hd; [|done]. intros _.
  destruct Hd as [He <-]. unfold analyze_entry. rewrite He. simpl.
  unfold increment. rewrite lookup_insert_eq. by destruct Hj as [-> | ->].
Qed.

(** A key that holds no count never holds one later. *)
Lemma analyze_from_meals_outside n j log : ∀ i results,
  mealsPerPhilosopher results !! j = None ∨
  mealsPerPhilosopher results !! j = Some NaN →
  mealsPerPhilosopher (analyze_from n i log results) !! j =
    if decide (meals_of j log = 0) then mealsPerPhilosopher results !! j
    else Some NaN.
Proof.
  induction log as [|e log IH]; intros i results Hj.
  - done.
  - cbn [analyze_from]. rewrite meals_of_cons.
    pose proof (meals_of_nonneg j log) as Hlog.
    pose proof (meals_of_nonneg j [e]) as He.
    destruct (decide (meals_of j [e] = 0)) as [He0|He0].
    + rewrite IH by (by rewrite analyze_entry_meals_other).
      rewrite analyze_entry_meals_other by done.
      rewrite He0, Z.add_0_l. done.
    + rewrite IH by (right; by apply analyze_entry_meals_NaN).
      rewrite (analyze_entry_meals_NaN n i e results j) by done.
      rewrite (decide_False (P := meals_of j [e] + meals_of j log = 0)) by lia.
      by case_decide.
Qed.

Lemma analyze_from_no_actor log : ∀ i results,
  mutualExclusionViolations (analyze_from 0 i log results) =
    mutualExclusionViolations results.
Proof.
  induction log as [|e log IH]; intros i results; simpl; [done|].
  rewrite IH. unfold analyze_entry.
  destruct (String.eqb_spec (event e) "EAT_START"); [done|].
  by destruct (String.eqb_spec (event e) "EAT_END").
Qed.
End AnalyzerEdges.

(** X12.  Edges of [analyzeLog].  An actor count outside 0..2^32-1 makes
    [Array(n)] throw.  With no actor ([n] = 0) the neighbours are NaN and no
    violation is ever reported.  An identity outside 0..n-1 has no count: its
    key is absent until its first EAT_END and NaN from then on. *)
Theorem analyzeLog_edges (log : list Entry) (n : Z) :
  (analyzeLog log n = inl RangeError ↔ n < 0 ∨ 2 ^ 32 ≤ n) ∧
  (∀ results, analyzeLog log 0 = inr results →
              mutualExclusionViolations results = []) ∧
  (∀ results j,
     analyzeLog log n = inr results → ¬ (0 ≤ j < n) →
     mealsPerPhilosopher results !! j =
       if decide (meals_of j log = 0) then None else Some NaN).
Proof.
  split; [|split].
  - unfold analyzeLog. case_decide; split; try done; lia.
  - unfold analyzeLog. rewrite decide_True by lia. intros results [= <-].
    by rewrite analyze_from_no_actor.
  - intros results j. unfold analyzeLog. case_decide as Hn; [|done].
    intros [= <-] Hj.
    assert (zeros n !! j = None) as Hnone.
    { unfold zeros. apply lookup_gset_to_gmap_None.
      rewrite elem_of_list_to_set, elem_of_seqZ. lia. }
    rewrite analyze_from_meals_outside by (left; done).
    simpl. by rewrite Hnone.
Qed.

Lemma analyzeLog_edges_witness :
  let stop p := mkEntry None (JStr "naive") 0 p "EAT_END" [Num p; Num (p + 1)] in
  analyzeLog [stop 7] (-1) = inl RangeError ∧
  ∃ results, analyzeLog [stop 7; stop 0] 5 = inr results ∧
             mealsPerPhilosopher results !! 7 = Some NaN ∧
             mealsPerPhilosopher results !! 9 = None.
Proof.
  intros stop.
  split; [apply (analyzeLog_edges [stop 7] (-1)); lia|].
  eexists. split; [reflexivity|].
  destruct (analyzeLog_edges [stop 7; stop 0] 5) as (_ & _ & Hout).
  split.
  - rewrite (Hout _ 7 eq_refl) by lia. reflexivity.
  - rewrite (Hout _ 9 eq_refl) by lia. reflexivity.
Defined.

(** ** The analyzer on the trace of a philosopher *)

Section AnalyzerOnCycles.
Implicit Types (log : list Entry) (results : Results) (entry : Entry).

Lemma has_empty x : has ∅ x = false.
Proof. destruct x; [|done]. simpl. by apply bool_decide_eq_false_2. Qed.

(** An EAT_START analyzed while nobody eats: nothing to report. *)
Lemma analyze_entry_start_quiet n i entry results j c :
  event entry = "EAT_START" →
  currentlyEating results = ∅ →
  mealsPerPhilosopher results !! j = Some (Num c) →
  let results' := analyze_entry n i entry results in
  sequenceErrors results' = sequenceErrors results ∧
  mutualExclusionViolations results' = mutualExclusionViolations results ∧
  currentlyEating results' = {[phil entry]} ∧
  mealsPerPhilosopher results' !! j = Some (Num c).
Proof.
  intros Hev Hnone Hc results'. subst results'.
  destruct (analyze_entry_sequence n i entry results) as (news & -> & _ & Hs).
  destruct (analyze_entry_violations n i entry results) as (newv & -> & _ & Hv).
  rewrite analyze_entry_eating, decide_True by done.
  rewrite Hnone in Hv. rewrite !has_empty in Hv.
  split; [|split; [|split]].
  - destruct news; [by rewrite app_nil_r|]. exfalso.
    assert (event entry = "EAT_END") as He by (by apply Hs). congruence.
  - destruct newv; [by rewrite app_nil_r|]. exfalso.
    assert (false = true ∨ false = true) as [?|?] by (by apply Hv); done.
  - rewrite Hnone. apply union_empty_r_L.
  - rewrite analyze_entry_meals_other; [done|].
    rewrite meals_of_singleton. rewrite decide_False; [done|].
    intros [He _]. congruence.
Qed.

(** The EAT_END of the only actor that eats: one more meal, nothing to
    report. *)
Lemma analyze_entry_end_quiet n i entry results c :
  event entry = "EAT_END" →
  currentlyEating results = {[phil entry]} →
  mealsPerPhilosopher results !! phil entry = Some (Num c) →
  let results' := analyze_entry n i entry results in
  sequenceErrors results' = sequenceErrors results ∧
  mutualExclusionViolations results' = mutualExclusionViolations results ∧
  currentlyEating results' = ∅ ∧
  mealsPerPhilosopher results' !! phil entry = Some (Num (c + 1)).
Proof.
  intros Hev Hone Hc results'. subst results'.
  destruct (analyze_entry_sequence n i entry results) as (news & -> & _ & Hs).
  destruct (analyze_entry_violations n i entry results) as (newv & -> & _ & Hv).
  rewrite analyze_entry_eating, decide_False by congruence.
  rewrite decide_True by done.
  split; [|split; [|split]].
  - destruct news; [by rewrite app_nil_r|]. exfalso.
    assert (phil entry ∉ currentlyEating results) as Hnot by (by apply Hs).
    apply Hnot. rewrite Hone. by apply elem_of_singleton.
  - destruct newv; [by rewrite app_nil_r|]. exfalso.
    assert (event entry = "EAT_START") as He by (by apply Hv). congruence.
  - rewrite Hone. apply difference_diag_L.
  - rewrite (analyze_entry_meals n i entry results (phil entry) c Hc).
    rewrite meals_of_singleton. by rewrite decide_True.
Qed.

(** One eat cycle of [r], analyzed while nobody eats: one more meal, nothing
    to report, and nobody eats afterwards. *)
Lemma analyze_cycle n r log : ∀ i results c,
  event <$> log = naive_cycle →
  Forall (λ e, phil e = r) log →
  currentlyEating results = ∅ →
  mealsPerPhilosopher results !! r = Some (Num c) →
  let results' := analyze_from n i log results in
  sequenceErrors results' = sequenceErrors results ∧
  mutualExclusionViolations results' = mutualExclusionViolations results ∧
  currentlyEating results' = ∅ ∧
  mealsPerPhilosopher results' !! r = Some (Num (c + 1)).
Proof.
  intros i results c Hev Hr Hnone Hc.
  do 9 (destruct log as [|? log]; try discriminate).
  injection Hev as H1 H2 H3 H4 H5 H6 H7 H8.
  repeat (apply Forall_cons in Hr as [? Hr]).
  cbn [analyze_from].
  rewrite (analyze_entry_other n i e) by (by rewrite H1).
  rewrite (analyze_entry_other n _ e0) by (by rewrite H2).
  rewrite (analyze_entry_other n _ e1) by (by rewrite H3).
  rewrite (analyze_entry_other n _ e2) by (by rewrite H4).
  destruct (analyze_entry_start_quiet n (S (S (S (S i)))) e3 results r c
              H5 Hnone Hc) as (Hs5 & Hv5 & He5 & Hc5).
  set (results5 := analyze_entry n (S (S (S (S i)))) e3 results) in *.
  assert (phil e4 = phil e3) as Hsame by congruence.
  rewrite <- Hsame in He5.
  assert (r = phil e4) as Hr4 by congruence. rewrite Hr4 in Hc5.
  destruct (analyze_entry_end_quiet n (S (S (S (S (S i))))) e4 results5 c
              H6 He5 Hc5) as (Hs6 & Hv6 & He6 & Hc6).
  set (results6 := analyze_entry n (S (S (S (S (S i))))) e4 results5) in *.
  rewrite (analyze_entry_other n _ e5) by (by rewrite H7).
  rewrite (analyze_entry_other n _ e6) by (by rewrite H8).
  rewrite Hs6, Hs5, Hv6, Hv5, He6, Hr4, Hc6. done.
Qed.
End AnalyzerOnCycles.

Section AnalyzerOnRuns.
Context `{Host}.
Implicit Types (log : list Entry) (results : Results).

Lemma analyze_cycles n r : ∀ (k : nat) log i results c,
  event <$> log = concat (replicate k naive_cycle) →
  Forall (λ e, phil e = r) log →
  currentlyEating results = ∅ →
  mealsPerPhilosopher results !! r = Some (Num c) →
  let results' := analyze_from n i log results in
  sequenceErrors results' = sequenceErrors results ∧
  mutualExclusionViolations results' = mutualExclusionViolations results ∧
  currentlyEating results' = ∅ ∧
  mealsPerPhilosopher results' !! r = Some (Num (c + Z.of_nat k)).
Proof.
  induction k as [|k IH]; intros log i results c Hev Hr Hnone Hc.
  - apply fmap_nil_inv in Hev as ->. simpl. by rewrite Z.add_0_r.
  - change (concat (replicate (S k) naive_cycle))
      with (naive_cycle ++ concat (replicate k naive_cycle)) in Hev.
    apply fmap_app_inv in Hev as (log1 & log2 & Hev1 & Hev2 & ->).
    symmetry in Hev1, Hev2.
    apply Forall_app in Hr as [Hr1 Hr2].
    rewrite analyze_from_app.
    destruct (analyze_cycle n r log1 i results c Hev1 Hr1 Hnone Hc)
      as (Hs1 & Hv1 & Hnone1 & Hc1).
    destruct (IH log2 (i + length log1)%nat _ _ Hev2 Hr2 Hnone1 Hc1)
      as (Hs2 & Hv2 & Hnone2 & Hc2).
    simpl. rewrite Hs2, Hv2, Hs1, Hv1, Hc2. do 3 (split; [done|]).
    do 2 f_equal. lia.
Qed.

(** What a call of [startNaive] that returns has written, entry by entry. *)
Lemma naive_written_entries this count others w w' waits :
  naive_run this count others w = (waits, (w', Returned)) →
  event <$> naive_written this count others w
    = concat (replicate (Z.to_nat count) naive_cycle) ∧
  Forall (λ e, phil e = Philosopher.id this) (naive_written this count others w).
Proof.
  unfold naive_run, naive_written, Philosopher.startNaive. intros Hrun.
  change (concat (replicate (Z.to_nat count) naive_cycle)) with (cycles count).
  pose proof (naive_loop_ok this count 0 w) as Hturn.
  destruct (Philosopher.naive_loop this count 0 w) as [w1 r1].
  destruct (drive_naive_written this count others _ _ _ _ Hrun) as [Hev Hown].
  unfold turn_ok in Hturn. simpl in *. rewrite Z.sub_0_r in Hturn.
  assert (∀ l : list Entry,
            Forall (λ e, phil e = Philosopher.id this ∧
                         forks e = [Philosopher.f1 this; Philosopher.f2 this]) l →
            Forall (λ e, phil e = Philosopher.id this) l) as Hweak.
  { intros l Hl. eapply Forall_impl; [exact Hl|]. by intros e [? _]. }
  destruct r1 as [|wt s|e].
  - apply writes_appended in Hturn as [Hev1 Hown1].
    rewrite fmap_app, Hev1, Hev, app_nil_r. split; [done|].
    apply Forall_app. split; by apply Hweak.
  - destruct Hturn as (evs & Hw & <-).
    apply writes_appended in Hw as [Hev1 Hown1].
    rewrite fmap_app, Hev1, Hev. split; [done|].
    apply Forall_app. split; by apply Hweak.
  - by rewrite drive_thrown in Hrun.
Qed.
End AnalyzerOnRuns.

(** X10.  The analyzer on the trace of one call: for a call of
    [startNaive(count)] that has returned, whatever the other tasks did,
    [analyzeLog] applied to the entries the call wrote counts exactly [count]
    meals for its philosopher (0 when [count] is negative), reports no
    sequence error and no violation, and ends with nobody eating. *)
Theorem naive_trace_analysis `{Host} (this : Philosopher.obj) (count : Z)
    (others : list (World → World)) (w w' : World) (waits : list Wait) (n : Z) :
  0 ≤ n < 2 ^ 32 →
  0 ≤ Philosopher.id this < n →
  naive_run this count others w = (waits, (w', Returned)) →
  ∃ results,
    analyzeLog (naive_written this count others w) n = inr results ∧
    mealsPerPhilosopher results !! Philosopher.id this
      = Some (Num (Z.max 0 count)) ∧
    sequenceErrors results = [] ∧
    mutualExclusionViolations results = [] ∧
    currentlyEating results = ∅.
Proof.
  intros Hn Hid Hrun.
  destruct (naive_written_entries this count others w w' waits Hrun)
    as [Hev Hown].
  unfold analyzeLog. rewrite decide_True by done.
  set (init := {| mealsPerPhilosopher := zeros n;
                  sequenceErrors := [];
                  mutualExclusionViolations := [];
                  currentlyEating := ∅ |}).
  destruct (analyze_cycles n (Philosopher.id this) (Z.to_nat count)
              (naive_written this count others w) 0%nat init 0 Hev Hown
              eq_refl (zeros_lookup n _ Hid))
    as (Hs & Hv & Hnone & Hc).
  eexists. split; [reflexivity|].
  rewrite Hs, Hv, Hnone, Hc. split; [|done]. do 2 f_equal. lia.
Qed.

Lemma naive_trace_analysis_witness :
  let this := Philosopher.new 0 five_forks in
  let w := @fresh_world sample_host in
  ∃ results,
    analyzeLog (@naive_written sample_host this 2 (replicate 6 id) w) 5
      = inr results ∧
    mealsPerPhilosopher results !! 0 = Some (Num 2) ∧
    sequenceErrors results = [] ∧
    mutualExclusionViolations results = [].
Proof.
  intros this w.
  edestruct (@naive_trace_analysis sample_host this 2 (replicate 6 id) w)
    as (results & Ha & Hm & Hs & Hv & _).
  - instantiate (1 := 5). lia.
  - simpl. lia.
  - vm_compute. reflexivity.
  - exists results. split; [exact Ha|]. split; [exact Hm|]. split; [exact Hs|exact Hv].
Defined.

(** ** Several philosophers: what a turn does to the forks *)

Section ForkCalls.
Context `{Host}.
Implicit Types (w : World) (tb : list Fork.obj) (r : Z) (fs : list jsnum)
               (x : jsnum).

Lemma js_slot_Some {A} (array : list A) x k :
  js_slot array x = Some k ↔
  ∃ z, x = Num z ∧ 0 ≤ z < Z.of_nat (length array) ∧ k = Z.to_nat z.
Proof.
  unfold js_slot. destruct x as [z|].
  - case_decide as Hz.
    + split.
      * intros [= <-]. by exists z.
      * by intros (z' & [= <-] & _ & ->).
    + split; [done|]. intros (z' & [= <-] & Hz' & _). tauto.
  - split; [done|]. by intros (z & ? & _).
Qed.

Lemma js_slot_lookup {A} (array : list A) x k :
  js_slot array x = Some k → is_Some (array !! k).
Proof.
  rewrite js_slot_Some. intros (z & -> & Hz & ->).
  apply lookup_lt_is_Some. lia.
Qed.

Lemma js_slot_length {A B} (a : list A) (b : list B) x :
  length a = length b → js_slot a x = js_slot b x.
Proof. intros Hlen. unfold js_slot. by rewrite Hlen. Qed.

(** A turn of [acquire] on [forks[x]]: no such fork, or the fork was free and
    is taken now, or it was taken and nothing changed. *)
Lemma call_fork_cases x r fs m w :
  (∀ fork g, ∃ waitTime g0, m fork g = Fork.acquire_check r fs waitTime fork g0) →
  let res := Philosopher.call_fork x m w in
  (js_slot (table w) x = None ∧ res = (w, Thrown TypeError)) ∨
  (∃ k fork,
     js_slot (table w) x = Some k ∧ table w !! k = Some fork ∧
     Fork.state fork = 0 ∧ res.2 = Returned ∧
     table res.1 =
       <[k := {| Fork.id := Fork.id fork; Fork.state := 1;
                 Fork.holder := Some r |}]> (table w)) ∨
  (∃ k fork waitTime,
     js_slot (table w) x = Some k ∧ table w !! k = Some fork ∧
     Fork.state fork ≠ 0 ∧ res.2 = Awaiting (Timer waitTime) waitTime ∧
     table res.1 = table w).
Proof.
  intros Hm res. subst res. unfold Philosopher.call_fork.
  destruct (js_slot (table w) x) as [k|] eqn:Hslot; [|by left].
  destruct (js_slot_lookup _ _ _ Hslot) as [fork Hfork]. rewrite Hfork.
  destruct (Hm fork (globals w)) as (waitTime & g0 & ->).
  unfold Fork.acquire_check. case_decide as Hs; simpl.
  - right; left. by exists k, fork.
  - right; right. exists k, fork, waitTime. by rewrite list_insert_id.
Qed.

Lemma acquire_is_check r fs fork g :
  ∃ waitTime g0,
    Fork.acquire r fs fork g = Fork.acquire_check r fs waitTime fork g0.
Proof. by eexists _, _. Qed.

Lemma acquire_resume_is_check r fs waited fork g :
  ∃ waitTime g0,
    Fork.acquire_resume r fs waited fork g
      = Fork.acquire_check r fs waitTime fork g0.
Proof. by eexists _, _. Qed.

(** [release] on [forks[x]]: no such fork, or not the holder, or freed. *)
Lemma call_release_cases x r fs w :
  let res := Philosopher.call_release x r fs w in
  (js_slot (table w) x = None ∧ res = (w, Throw TypeError)) ∨
  (∃ k fork,
     js_slot (table w) x = Some k ∧ table w !! k = Some fork ∧
     Fork.holder fork ≠ Some r ∧
     res = (w, Throw (OwnershipError (Fork.release_message r (Fork.holder fork))))) ∨
  (∃ k fork,
     js_slot (table w) x = Some k ∧ table w !! k = Some fork ∧
     Fork.holder fork = Some r ∧ res.2 = Normal ∧
     table res.1 =
       <[k := {| Fork.id := Fork.id fork; Fork.state := 0;
                 Fork.holder := None |}]> (table w)).
Proof.
  intros res. subst res. unfold Philosopher.call_release.
  destruct (js_slot (table w) x) as [k|] eqn:Hslot; [|by left].
  destruct (js_slot_lookup _ _ _ Hslot) as [fork Hfork]. rewrite Hfork.
  unfold Fork.release. case_decide as Hh; simpl.
  - right; left. exists k, fork. rewrite list_insert_id by done.
    by destruct w.
  - right; right. exists k, fork. split; [done|]. split; [done|].
    split; [|done]. by destruct (decide (Fork.holder fork = Some r)).
Qed.
End ForkCalls.

Section Frame.
Implicit Types (tb : list Fork.obj) (r : Z) (x : jsnum).

Lemma frame_refl r tb : frame r tb tb.
Proof. unfold frame. by apply Forall_Forall2_diag, Forall_true. Qed.

Lemma frame_trans r tb1 tb2 tb3 :
  frame r tb1 tb2 → frame r tb2 tb3 → frame r tb1 tb3.
Proof.
  unfold frame. intros H12 H23.
  eapply Forall2_trans; [|exact H12|exact H23].
  intros a b c Hab Hbc. by etrans.
Qed.

Lemma frame_insert r tb k fork fork' :
  tb !! k = Some fork → fork_step r fork fork' → frame r tb (<[k := fork']> tb).
Proof.
  intros Hk Hstep. unfold frame.
  rewrite <- (list_insert_id tb k fork Hk) at 1.
  apply Forall2_insert; [apply frame_refl|]. by apply rtc_once.
Qed.

Lemma frame_length r tb tb' : frame r tb tb' → length tb' = length tb.
Proof. intros Hf. symmetry. by eapply Forall2_length. Qed.

Lemma fork_step_inv r fork fork' :
  fork_step r fork fork' → fork_inv fork'.
Proof. destruct 1; [apply fork_inv_taken|apply fork_inv_free]. Qed.

Lemma fork_steps_inv r fork fork' :
  rtc (fork_step r) fork fork' → fork_inv fork → fork_inv fork'.
Proof.
  induction 1 as [|a b c Hab _ IH]; [done|].
  intros _. apply IH. by eapply fork_step_inv.
Qed.

Lemma frame_inv r tb tb' :
  frame r tb tb' → Forall fork_inv tb → Forall fork_inv tb'.
Proof.
  unfold frame. induction 1 as [|a b l l' Hab _ IH]; [done|].
  intros [Ha Hl]%Forall_cons. constructor; [by eapply fork_steps_inv|by apply IH].
Qed.

(** A fork that somebody else holds is out of reach. *)
Lemma fork_steps_foreign r fork fork' j :
  rtc (fork_step r) fork fork' → fork_inv fork →
  Fork.holder fork = Some j → j ≠ r → fork' = fork.
Proof.
  intros Hsteps Hinv Hj Hne. destruct Hsteps as [|a b c Hab _]; [done|].
  exfalso. destruct Hab as [a Hfree|a Hmine].
  - destruct Hinv as [_ Hinv]. rewrite Hinv in Hfree by congruence. done.
  - congruence.
Qed.

Lemma frame_foreign r tb tb' k fork j :
  frame r tb tb' → tb !! k = Some fork → fork_inv fork →
  Fork.holder fork = Some j → j ≠ r → tb' !! k = Some fork.
Proof.
  intros Hf Hk Hinv Hj Hne.
  destruct (Forall2_lookup_l _ _ _ _ _ Hf Hk) as (fork' & Hk' & Hsteps).
  by rewrite (fork_steps_foreign r fork fork' j Hsteps Hinv Hj Hne) in Hk'.
Qed.

Lemma holds_frame r tb tb' x j :
  frame r tb tb' → Forall fork_inv tb → j ≠ r →
  holds tb x j → holds tb' x j.
Proof.
  intros Hf Hinv Hne (k & fork & Hslot & Hk & Hj).
  exists k, fork. split; [|split; [|done]].
  - rewrite <- Hslot. apply js_slot_length. by eapply frame_length.
  - eapply frame_foreign; [done..| |done|done].
    by eapply Forall_lookup_1.
Qed.
End Frame.

Section Turns.
Context `{Host}.
Implicit Types (w : World) (p : Philosopher.obj) (i count : Z).

Lemma hand_ok_nothing tb p st :
  in_hand p st = [] → (∀ message, st ≠ Thrown (OwnershipError message)) →
  hand_ok tb p st.
Proof. intros Hh Hst. unfold hand_ok. rewrite Hh. by repeat constructor. Qed.

Lemma holds_taken tb x k fork r :
  js_slot tb x = Some k → tb !! k = Some fork →
  holds (<[k := {| Fork.id := Fork.id fork; Fork.state := 1;
                   Fork.holder := Some r |}]> tb) x r.
Proof.
  intros Hslot Hk.
  exists k, {| Fork.id := Fork.id fork; Fork.state := 1; Fork.holder := Some r |}.
  split; [|split; [|reflexivity]].
  - rewrite <- Hslot. apply js_slot_length. apply length_insert.
  - apply list_lookup_insert_eq. by eapply lookup_lt_Some.
Qed.

Lemma first_fork_turn p i m w :
  (∀ fork g, ∃ waitTime g0,
     m fork g = Fork.acquire_check (Philosopher.id p)
                  [Philosopher.f1 p; Philosopher.f2 p] waitTime fork g0) →
  let res := Philosopher.first_fork p i m w in
  frame (Philosopher.id p) (table w) (table res.1) ∧
  hand_ok (table res.1) p res.2.
Proof.
  intros Hm res. subst res. unfold Philosopher.first_fork.
  destruct (call_fork_cases (Philosopher.f1 p) _ _ m w Hm)
    as [[_ ->]|[(k & fork & Hslot & Hk & Hfree & Hr & Htb)
               |(k & fork & wt & Hslot & Hk & Htaken & Hr & Htb)]].
  - split; [apply frame_refl|]. by apply hand_ok_nothing.
  - destruct (Philosopher.call_fork _ m w) as [w' r]. simpl in *. subst r. cbn [fst snd].
    rewrite Htb. split; [eapply frame_insert; [done|by constructor]|].
    split; [|split; [|done]]; simpl.
    + constructor; [|constructor]. by apply holds_taken.
    + apply NoDup_singleton.
  - destruct (Philosopher.call_fork _ m w) as [w' r]. simpl in *. subst r. cbn [fst snd].
    rewrite Htb. split; [apply frame_refl|]. by apply hand_ok_nothing.
Qed.

Lemma second_fork_turn p i m w :
  (∀ fork g, ∃ waitTime g0,
     m fork g = Fork.acquire_check (Philosopher.id p)
                  [Philosopher.f1 p; Philosopher.f2 p] waitTime fork g0) →
  Forall fork_inv (table w) →
  holds (table w) (Philosopher.f1 p) (Philosopher.id p) →
  let res := Philosopher.second_fork p i m w in
  frame (Philosopher.id p) (table w) (table res.1) ∧
  hand_ok (table res.1) p res.2.
Proof.
  intros Hm Hinv (k1 & fork1 & Hslot1 & Hk1 & Hmine) res. subst res.
  unfold Philosopher.second_fork.
  destruct (call_fork_cases (Philosopher.f2 p) _ _ m w Hm)
    as [[_ ->]|[(k & fork & Hslot & Hk & Hfree & Hr & Htb)
               |(k & fork & wt & Hslot & Hk & Htaken & Hr & Htb)]].
  - split; [apply frame_refl|]. by apply hand_ok_nothing.
  - destruct (Philosopher.call_fork _ m w) as [w' r]. simpl in *. subst r. cbn [fst snd].
    rewrite Htb. split; [eapply frame_insert; [done|by constructor]|].
    assert (k1 ≠ k) as Hne.
    { intros Heq. subst k1. rewrite Hk in Hk1. injection Hk1 as <-.
      apply (Forall_lookup_1 _ _ _ _ Hinv) in Hk as [_ Hone].
      rewrite Hone in Hfree by congruence. done. }
    assert (js_slot (<[k := {| Fork.id := Fork.id fork; Fork.state := 1;
                               Fork.holder := Some (Philosopher.id p) |}]>
                       (table w)) (Philosopher.f1 p) = Some k1) as Hslot1'.
    { rewrite <- Hslot1. apply js_slot_length. apply length_insert. }
    assert (js_slot (<[k := {| Fork.id := Fork.id fork; Fork.state := 1;
                               Fork.holder := Some (Philosopher.id p) |}]>
                       (table w)) (Philosopher.f2 p) = Some k) as Hslot2'.
    { rewrite <- Hslot. apply js_slot_length. apply length_insert. }
    split; [|split; [|done]]; simpl.
    + constructor; [|constructor; [|constructor]].
      * exists k1, fork1. split; [done|]. split; [|done].
        by rewrite list_lookup_insert_ne.
      * by apply holds_taken.
    + rewrite Hslot1', Hslot2'. apply NoDup_cons. split.
      * rewrite list_elem_of_singleton. congruence.
      * apply NoDup_singleton.
  - destruct (Philosopher.call_fork _ m w) as [w' r]. simpl in *. subst r. cbn [fst snd].
    rewrite Htb. split; [apply frame_refl|].
    split; [|split; [|done]]; simpl.
    + constructor; [|constructor]. by exists k1, fork1.
    + apply NoDup_singleton.
Qed.

Lemma naive_loop_turn p count i w :
  let res := Philosopher.naive_loop p count i w in
  frame (Philosopher.id p) (table w) (table res.1) ∧
  hand_ok (table res.1) p res.2.
Proof.
  intros res. subst res. unfold Philosopher.naive_loop. case_decide.
  - apply first_fork_turn. intros fork g. apply acquire_is_check.
  - split; [apply frame_refl|]. by apply hand_ok_nothing.
Qed.
End Turns.

Section TurnsOfResume.
Context `{Host}.
Implicit Types (w : World) (p : Philosopher.obj) (i count : Z).

(** The end of a meal: both forks are in hand, both releases succeed. *)
Lemma eating_turn p count i w :
  hand_ok (table w) p (Awaiting (Timer 1) (Philosopher.Eating i)) →
  let res := Philosopher.naive_resume p count (Philosopher.Eating i) w in
  frame (Philosopher.id p) (table w) (table res.1) ∧
  hand_ok (table res.1) p res.2.
Proof.
  intros (Hheld & Hdup & _) res. subst res. simpl in Hheld, Hdup.
  apply Forall_cons in Hheld as [(k1 & fork1 & Hslot1 & Hk1 & Hmine1) Hheld].
  apply Forall_cons in Hheld as [(k2 & fork2 & Hslot2 & Hk2 & Hmine2) _].
  rewrite Hslot1, Hslot2 in Hdup.
  assert (k1 ≠ k2) as Hne.
  { intros ->. apply NoDup_cons in Hdup as [Hin _].
    apply Hin. by apply list_elem_of_singleton. }
  cbn [Philosopher.naive_resume].
  set (fs := [Philosopher.f1 p; Philosopher.f2 p]).
  set (w1 := {| table := table w;
                globals := Philosopher.log p "EAT_END" (globals w) |}).
  destruct (call_release_cases (Philosopher.f1 p) (Philosopher.id p) fs w1)
    as [[Hnone _]|[(k & fork & Hslot & Hk & Hother & _)
                  |(k & fork & Hslot & Hk & _ & Hc1 & Htb1)]];
    simpl in *; [congruence|congruence|].
  simplify_eq.
  destruct (Philosopher.call_release (Philosopher.f1 p) _ fs w1) as [w2 c1].
  simpl in Hc1, Htb1. subst c1. cbv beta iota.
  assert (js_slot (table w2) (Philosopher.f2 p) = Some k2) as Hslot2'.
  { rewrite <- Hslot2. apply js_slot_length. rewrite Htb1. apply length_insert. }
  assert (table w2 !! k2 = Some fork2) as Hk2'.
  { rewrite Htb1. by rewrite list_lookup_insert_ne. }
  destruct (call_release_cases (Philosopher.f2 p) (Philosopher.id p) fs w2)
    as [[Hnone _]|[(k & fork' & Hslot & Hk' & Hother & _)
                  |(k & fork' & Hslot & Hk' & _ & Hc2 & Htb2)]];
    simpl in *; [congruence|congruence|].
  simplify_eq.
  destruct (Philosopher.call_release (Philosopher.f2 p) _ fs w2) as [w3 c2].
  simpl in Hc2, Htb2. subst c2. cbv beta iota.
  destruct (naive_loop_turn p count (i + 1) w3) as [Hframe Hhand].
  split; [|done].
  apply (frame_trans _ _ (table w2)); [|apply (frame_trans _ _ (table w3))].
  - rewrite Htb1. eapply frame_insert; [done|by constructor].
  - rewrite Htb2. eapply frame_insert; [done|by constructor].
  - exact Hframe.
Qed.

(** Every turn of [startNaive] changes the forks only as its philosopher
    may, and leaves the call in order. *)
Lemma naive_resume_turn p count wt s w :
  Forall fork_inv (table w) →
  hand_ok (table w) p (Awaiting wt s) →
  let res := Philosopher.naive_resume p count s w in
  frame (Philosopher.id p) (table w) (table res.1) ∧
  hand_ok (table res.1) p res.2.
Proof.
  intros Hinv Hhand. destruct s as [i waited|i|i waited|i|i].
  - apply first_fork_turn. intros fork g. apply acquire_resume_is_check.
  - destruct Hhand as (Hheld & _ & _). apply Forall_cons in Hheld as [Hheld _].
    apply second_fork_turn; [|done..]. intros fork g. apply acquire_is_check.
  - destruct Hhand as (Hheld & _ & _). apply Forall_cons in Hheld as [Hheld _].
    apply second_fork_turn; [|done..].
    intros fork g. apply acquire_resume_is_check.
  - simpl. split; [apply frame_refl|]. destruct Hhand as (Hheld & Hdup & _).
    by split; [|split].
  - apply eating_turn. destruct Hhand as (Hheld & Hdup & _). by split; [|split].
Qed.

(** A call of another philosopher stays in order through the turn. *)
Lemma hand_ok_frame r tb tb' q st :
  frame r tb tb' → Forall fork_inv tb → Philosopher.id q ≠ r →
  hand_ok tb q st → hand_ok tb' q st.
Proof.
  intros Hf Hinv Hne (Hheld & Hdup & Hst). split; [|split; [|done]].
  - eapply Forall_impl; [exact Hheld|]. intros x Hx. by eapply holds_frame.
  - erewrite list_fmap_ext; [exact Hdup|]. intros _ x _.
    apply js_slot_length. by eapply frame_length.
Qed.
End TurnsOfResume.

Section TableInvariant.
Context `{Host}.
Implicit Types (sys : System) (count : Z).

Lemma table_inv_start tb g :
  Forall (λ fork, Fork.state fork = 0 ∧ Fork.holder fork = None) tb →
  table_inv {| world := {| table := tb; globals := g |}; tasks := [] |}.
Proof.
  intros Hfree. split; simpl.
  - eapply Forall_impl; [exact Hfree|]. intros fork [Hs Hh].
    unfold fork_inv. rewrite Hs, Hh. split; [done|congruence].
  - constructor.
  - constructor.
Qed.

Lemma resume_task_inv count k sys :
  table_inv sys → table_inv (resume_task count k sys).
Proof.
  intros [Hforks Hids Hhand]. unfold resume_task.
  destruct (tasks sys !! k) as [[p [|wt s|e]]|] eqn:Hk; try done.
  pose proof (Forall_lookup_1 _ _ _ _ Hhand Hk) as Hp. simpl in Hp.
  destruct (naive_resume_turn p count wt s (world sys) Hforks Hp)
    as [Hframe Hnew].
  destruct (Philosopher.naive_resume p count s (world sys)) as [w' r].
  simpl in *. split; simpl.
  - by eapply frame_inv.
  - rewrite list_fmap_insert. simpl. rewrite list_insert_id; [done|].
    by rewrite list_lookup_fmap, Hk.
  - apply Forall_lookup. intros j task Hj.
    apply list_lookup_insert_Some in Hj as [(-> & <- & _)|[Hjk Hj]]; [done|].
    eapply hand_ok_frame; [exact Hframe|done| |].
    + intros Heq. apply Hjk.
      eapply (NoDup_lookup _ k j); [exact Hids|..].
      * by rewrite list_lookup_fmap, Hk.
      * rewrite list_lookup_fmap, Hj. simpl. by rewrite Heq.
    + by eapply (Forall_lookup_1 _ _ _ _ Hhand).
Qed.

Lemma run_schedule_inv count schedule : ∀ sys,
  table_inv sys → table_inv (run_schedule count schedule sys).
Proof.
  induction schedule as [|k schedule IH]; intros sys Hinv; [done|].
  apply IH. by apply resume_task_inv.
Qed.

Lemma launch_inv count ps : ∀ sys,
  table_inv sys →
  NoDup (((λ task, Philosopher.id task.1) <$> tasks sys) ++
         (Philosopher.id <$> ps)) →
  table_inv (launch count ps sys).
Proof.
  induction ps as [|p ps IH]; intros sys Hinv Hdup; [done|].
  assert (NoDup ((((λ task, Philosopher.id task.1) <$> tasks sys) ++
                  [Philosopher.id p]) ++ (Philosopher.id <$> ps))) as Hdup'.
  { rewrite <- app_assoc. exact Hdup. }
  pose proof Hdup' as Hfirst.
  apply NoDup_app in Hfirst as (Hfirst & _ & _).
  apply NoDup_app in Hfirst as (_ & Hnot & _).
  cbn [launch foldl]. unfold Philosopher.startNaive.
  destruct Hinv as [Hforks Hids Hhand].
  destruct (naive_loop_turn p count 0 (world sys)) as [Hframe Hnew].
  destruct (Philosopher.naive_loop p count 0 (world sys)) as [w' r].
  cbn [fst snd] in Hframe, Hnew.
  apply IH.
  - split; cbn [world tasks].
    + by eapply frame_inv.
    + rewrite fmap_app. by apply NoDup_app in Hdup' as (Hdup' & _ & _).
    + apply Forall_app. split; [|by constructor].
      apply Forall_lookup. intros j task Hj.
      eapply hand_ok_frame; [exact Hframe|done| |].
      * intros Heq. apply (Hnot (Philosopher.id p)).
        -- rewrite <- Heq. apply list_elem_of_fmap. exists task.
           split; [done|]. by eapply list_elem_of_lookup_2.
        -- by left.
      * by eapply (Forall_lookup_1 _ _ _ _ Hhand).
  - cbn [tasks]. rewrite fmap_app. exact Hdup'.
Qed.

(** The invariant holds in every state that philosophers with distinct
    identities reach from free forks. *)
Lemma table_inv_reached count ps tb g schedule :
  Forall (λ fork, Fork.state fork = 0 ∧ Fork.holder fork = None) tb →
  NoDup (Philosopher.id <$> ps) →
  table_inv
    (run_schedule count schedule
       (launch count ps
          {| world := {| table := tb; globals := g |}; tasks := [] |})).
Proof.
  intros Hfree Hdup. apply run_schedule_inv, launch_inv; [|done].
  by apply table_inv_start.
Qed.
End TableInvariant.

(** X5.  Mutual exclusion of [startNaive].  Philosophers with distinct
    identities are launched on forks that are all free and their calls are
    resumed in any order: two of them that are both between EAT_START and
    EAT_END have no fork in common. *)
Theorem naive_mutual_exclusion `{Host} (count : Z) (ps : list Philosopher.obj)
    (tb : list Fork.obj) (g : Globals) (schedule : list nat)
    (i j : nat) (p q : Philosopher.obj)
    (sti stj : Turn Philosopher.NaivePoint) :
  Forall (λ fork, Fork.state fork = 0 ∧ Fork.holder fork = None) tb →
  NoDup (Philosopher.id <$> ps) →
  let sys := run_schedule count schedule
               (launch count ps
                  {| world := {| table := tb; globals := g |}; tasks := [] |}) in
  i ≠ j →
  tasks sys !! i = Some (p, sti) → tasks sys !! j = Some (q, stj) →
  is_eating sti = true → is_eating stj = true →
  ∀ x y, x ∈ [Philosopher.f1 p; Philosopher.f2 p] →
         y ∈ [Philosopher.f1 q; Philosopher.f2 q] → x ≠ y.
Proof.
  intros Hfree Hdup sys Hij Hi Hj Hei Hej x y Hx Hy Hxy. subst y.
  destruct (table_inv_reached count ps tb g schedule Hfree Hdup)
    as [Hforks Hids Hhand]. fold sys in Hforks, Hids, Hhand.
  destruct (Forall_lookup_1 _ _ _ _ Hhand Hi) as (Hpi & _ & _).
  destruct (Forall_lookup_1 _ _ _ _ Hhand Hj) as (Hqj & _ & _).
  simpl in Hpi, Hqj.
  destruct sti as [|wi [| | | |si]|]; try discriminate.
  destruct stj as [|wj [| | | |sj]|]; try discriminate.
  simpl in Hpi, Hqj. rewrite Forall_forall in Hpi, Hqj.
  destruct (Hpi x Hx) as (k & fork & Hslot & Hk & Hp).
  destruct (Hqj x Hy) as (k' & fork' & Hslot' & Hk' & Hq).
  simplify_eq. apply Hij.
  eapply (NoDup_lookup _ i j); [exact Hids|..].
  - by rewrite list_lookup_fmap, Hi.
  - rewrite list_lookup_fmap, Hj. simpl. congruence.
Qed.

Lemma naive_mutual_exclusion_witness :
  let p0 := Philosopher.new 0 five_forks in
  let p2 := Philosopher.new 2 five_forks in
  let sys := @run_schedule sample_host 1 [0; 0; 1; 1]%nat
               (@launch sample_host 1 [p0; p2]
                  {| world := @fresh_world sample_host; tasks := [] |}) in
  is_eating <$> (snd <$> tasks sys) = [true; true] ∧
  Philosopher.f2 p0 ≠ Philosopher.f1 p2.
Proof.
  intros p0 p2 sys. split; [by vm_compute|].
  apply (@naive_mutual_exclusion sample_host 1 [p0; p2] five_forks
           (@module_init sample_host) [0; 0; 1; 1]%nat 0%nat 1%nat p0 p2
           (Awaiting (Timer 1) (Philosopher.Eating 0))
           (Awaiting (Timer 1) (Philosopher.Eating 0))).
  - by repeat constructor.
  - apply NoDup_cons. split; [|apply NoDup_singleton].
    rewrite list_elem_of_singleton. by vm_compute.
  - lia.
  - by vm_compute.
  - by vm_compute.
  - reflexivity.
  - reflexivity.
  - right. left.
  - left.
Defined.

(** X14.  Ownership discipline of [startNaive], under the same conditions:
    in every reachable state every fork is taken exactly when it has a
    holder; a philosopher between EAT_START and EAT_END is the holder of both
    its forks, and they are two different forks; a philosopher that has its
    first fork and waits for the second is the holder of the first; and no
    call has failed with an ownership error on [release]. *)
Theorem naive_ownership_discipline `{Host} (count : Z)
    (ps : list Philosopher.obj) (tb : list Fork.obj) (g : Globals)
    (schedule : list nat) (i : nat) (p : Philosopher.obj)
    (st : Turn Philosopher.NaivePoint) :
  Forall (λ fork, Fork.state fork = 0 ∧ Fork.holder fork = None) tb →
  NoDup (Philosopher.id <$> ps) →
  let sys := run_schedule count schedule
               (launch count ps
                  {| world := {| table := tb; globals := g |}; tasks := [] |}) in
  tasks sys !! i = Some (p, st) →
  Forall fork_inv (table (world sys)) ∧
  (∀ message, st ≠ Thrown (OwnershipError message)) ∧
  (is_eating st = true →
   holds (table (world sys)) (Philosopher.f1 p) (Philosopher.id p) ∧
   holds (table (world sys)) (Philosopher.f2 p) (Philosopher.id p) ∧
   js_slot (table (world sys)) (Philosopher.f1 p)
     ≠ js_slot (table (world sys)) (Philosopher.f2 p)) ∧
  (∀ wt k waited,
     st = Awaiting wt (Philosopher.AcquiringSecond k waited) →
     holds (table (world sys)) (Philosopher.f1 p) (Philosopher.id p)).
Proof.
  intros Hfree Hdup sys Hi.
  destruct (table_inv_reached count ps tb g schedule Hfree Hdup)
    as [Hforks Hids Hhand]. fold sys in Hforks, Hids, Hhand.
  destruct (Forall_lookup_1 _ _ _ _ Hhand Hi) as (Hheld & Hnodup & Hst).
  simpl in Hheld, Hnodup, Hst.
  split; [done|]. split; [done|]. split.
  - intros He. destruct st as [|wt [| | | |s]|]; try discriminate.
    simpl in Hheld, Hnodup.
    apply Forall_cons in Hheld as [H1 Hheld].
    apply Forall_cons in Hheld as [H2 _].
    split; [done|]. split; [done|].
    apply NoDup_cons in Hnodup as [Hnot _].
    intros Heq. apply Hnot. rewrite Heq. by left.
  - intros wt k waited ->. simpl in Hheld.
    by apply Forall_cons in Hheld as [H1 _].
Qed.

Lemma naive_ownership_discipline_witness :
  let p0 := Philosopher.new 0 five_forks in
  let p1 := Philosopher.new 1 five_forks in
  let sys := @run_schedule sample_host 1 [0; 1; 1]%nat
               (@launch sample_host 1 [p0; p1]
                  {| world := @fresh_world sample_host; tasks := [] |}) in
  snd <$> tasks sys
    = [Awaiting (Timer 1) (Philosopher.AcquiringSecond 0 1);
       Awaiting (Timer 1) (Philosopher.Eating 0)] ∧
  holds (table (world sys)) (Num 1) 1 ∧ holds (table (world sys)) (Num 2) 1.
Proof.
  intros p0 p1 sys. split; [by vm_compute|].
  destruct (@naive_ownership_discipline sample_host 1 [p0; p1] five_forks
              (@module_init sample_host) [0; 1; 1]%nat 1%nat p1
              (Awaiting (Timer 1) (Philosopher.Eating 0)))
    as (_ & _ & Heat & _).
  - by repeat constructor.
  - apply NoDup_cons. split; [|apply NoDup_singleton].
    rewrite list_elem_of_singleton. by vm_compute.
  - by vm_compute.
  - destruct (Heat eq_refl) as (H1 & H2 & _). split; [exact H1|exact H2].
Defined.

(** ** Deadlock of the naive strategy *)

Section Blocked.
Context `{Host}.
Implicit Types (w : World) (p : Philosopher.obj) (sys : System) (count : Z).

(** At a table where every fork is taken, a call that waits for a fork goes
    on waiting and changes no fork. *)
Lemma blocked_turn p count wt s w :
  Forall (λ fork, Fork.state fork ≠ 0) (table w) →
  blocked (table w) (p, Awaiting wt s) →
  let res := Philosopher.naive_resume p count s w in
  table res.1 = table w ∧ blocked (table w) (p, res.2).
Proof.
  intros Htaken (Hpoint & Hs1 & Hs2) res. subst res. simpl in *.
  assert (∀ x m,
            is_Some (js_slot (table w) x) →
            (∀ fork g, ∃ waitTime g0,
               m fork g = Fork.acquire_check (Philosopher.id p)
                            [Philosopher.f1 p; Philosopher.f2 p] waitTime fork g0) →
            ∃ w' waited,
              Philosopher.call_fork x m w
                = (w', Awaiting (Timer waited) waited) ∧
              table w' = table w) as Hwait.
  { intros x m [k Hk] Hm.
    destruct (call_fork_cases x _ _ m w Hm)
      as [[Hnone _]|[(k' & fork & _ & Hfork & Hfree & _)
                    |(k' & fork & waited & _ & _ & _ & Hr & Htb)]].
    - congruence.
    - by destruct (Forall_lookup_1 _ _ _ _ Htaken Hfork).
    - destruct (Philosopher.call_fork x m w) as [w' r]. simpl in *. subst r. cbn [fst snd].
      by exists w', waited. }
  destruct s as [i waited|i|i waited|i|i]; try discriminate;
    cbn [Philosopher.naive_resume];
    unfold Philosopher.first_fork, Philosopher.second_fork.
  - destruct (Hwait (Philosopher.f1 p)
                (Fork.acquire_resume (Philosopher.id p)
                   [Philosopher.f1 p; Philosopher.f2 p] waited) Hs1)
      as (w' & waited' & -> & Htb);
      [intros; apply acquire_resume_is_check|]. by simpl.
  - destruct (Hwait (Philosopher.f2 p)
                (Fork.acquire (Philosopher.id p)
                   [Philosopher.f1 p; Philosopher.f2 p]) Hs2)
      as (w' & waited' & -> & Htb);
      [intros; apply acquire_is_check|]. by simpl.
  - destruct (Hwait (Philosopher.f2 p)
                (Fork.acquire_resume (Philosopher.id p)
                   [Philosopher.f1 p; Philosopher.f2 p] waited) Hs2)
      as (w' & waited' & -> & Htb);
      [intros; apply acquire_resume_is_check|]. by simpl.
Qed.

Lemma resume_task_blocked count k sys :
  Forall (λ fork, Fork.state fork ≠ 0) (table (world sys)) →
  Forall (blocked (table (world sys))) (tasks sys) →
  let sys' := resume_task count k sys in
  table (world sys') = table (world sys) ∧
  fst <$> tasks sys' = fst <$> tasks sys ∧
  Forall (blocked (table (world sys))) (tasks sys').
Proof.
  intros Htaken Hblocked sys'. subst sys'. unfold resume_task.
  destruct (tasks sys !! k) as [[p [|wt s|e]]|] eqn:Hk; try done.
  destruct (blocked_turn p count wt s (world sys) Htaken
              (Forall_lookup_1 _ _ _ _ Hblocked Hk)) as [Htb Hnew].
  destruct (Philosopher.naive_resume p count s (world sys)) as [w' r].
  simpl in *. split; [done|]. split.
  - rewrite list_fmap_insert. simpl. apply list_insert_id.
    by rewrite list_lookup_fmap, Hk.
  - by apply Forall_insert.
Qed.

Lemma run_schedule_blocked count schedule : ∀ sys,
  Forall (λ fork, Fork.state fork ≠ 0) (table (world sys)) →
  Forall (blocked (table (world sys))) (tasks sys) →
  let sys' := run_schedule count schedule sys in
  table (world sys') = table (world sys) ∧
  fst <$> tasks sys' = fst <$> tasks sys ∧
  Forall (blocked (table (world sys))) (tasks sys').
Proof.
  induction schedule as [|k schedule IH]; intros sys Htaken Hblocked; [done|].
  destruct (resume_task_blocked count k sys Htaken Hblocked)
    as (Htb & Hps & Hnext).
  simpl. rewrite <- Htb in Htaken, Hnext.
  destruct (IH (resume_task count k sys) Htaken Hnext) as (Htb' & Hps' & Hfinal).
  rewrite Htb', Hps', Htb in *. done.
Qed.
End Blocked.

Section Launch.
Context `{Host}.
Implicit Types (n m : nat) (count : Z).

Lemma length_make_forks n : length (make_forks n) = n.
Proof. unfold make_forks. by rewrite length_fmap, length_seq. Qed.

Lemma half_taken_length n m : length (half_taken n m) = n.
Proof. unfold half_taken. by rewrite length_fmap, length_seq. Qed.

Lemma half_taken_lookup n m i :
  (i < n)%nat →
  half_taken n m !! i =
    Some (if decide (i < m)%nat then left_taken i else Fork.new (Z.of_nat i)).
Proof.
  intros Hi. unfold half_taken. rewrite list_lookup_fmap.
  by rewrite (proj2 (lookup_seq 0 n i i) (conj eq_refl Hi)).
Qed.

Lemma half_taken_none n : half_taken n 0 = make_forks n.
Proof. reflexivity. Qed.

Lemma half_taken_all n : half_taken n n = taken_forks n.
Proof.
  unfold half_taken, taken_forks. apply list_fmap_ext.
  intros k i Hi. apply lookup_seq in Hi as [-> Hk].
  by rewrite decide_True by lia.
Qed.

Lemma half_taken_step n m :
  (m < n)%nat → <[m := left_taken m]> (half_taken n m) = half_taken n (S m).
Proof.
  intros Hm. apply list_eq. intros i.
  destruct (decide (i = m)) as [->|Hne].
  - rewrite list_lookup_insert_eq by (by rewrite half_taken_length).
    rewrite half_taken_lookup by done. by rewrite decide_True by lia.
  - rewrite list_lookup_insert_ne by done.
    destruct (decide (i < n)%nat) as [Hi|Hi].
    + rewrite !half_taken_lookup by done.
      destruct (decide (i < m)%nat), (decide (i < S m)%nat); try done; lia.
    + rewrite !lookup_ge_None_2; [done|rewrite half_taken_length; lia..].
Qed.

Lemma js_slot_rem (tb : list Fork.obj) (a : Z) :
  0 ≤ a → tb ≠ [] →
  is_Some (js_slot tb (js_rem a (Z.of_nat (length tb)))).
Proof.
  intros Ha Htb.
  assert (0 < Z.of_nat (length tb)) as Hlen by (destruct tb; [done|simpl; lia]).
  unfold js_rem. rewrite decide_False by lia.
  pose proof (Z.rem_bound_pos a (Z.of_nat (length tb)) Ha Hlen) as Hrem.
  unfold js_slot. rewrite decide_True by done. by eexists.
Qed.

(** Philosopher [m] is launched when the forks below [m] are taken: it
    takes fork [m] in its first turn. *)
Lemma launch_one n m count g :
  0 < count → (m < n)%nat →
  ∃ g',
    Philosopher.startNaive (Philosopher.new (Z.of_nat m) (make_forks n)) count
      {| table := half_taken n m; globals := g |}
    = ({| table := half_taken n (S m); globals := g' |},
       Awaiting Settled (Philosopher.AcquiredFirst 0)).
Proof.
  intros Hcount Hm.
  unfold Philosopher.startNaive, Philosopher.naive_loop.
  rewrite decide_True by done.
  unfold Philosopher.first_fork, Philosopher.call_fork.
  cbn [Philosopher.f1 Philosopher.f2 Philosopher.id Philosopher.new table globals].
  rewrite length_make_forks.
  assert (js_rem (Z.of_nat m) (Z.of_nat n) = Num (Z.of_nat m)) as ->.
  { unfold js_rem. rewrite decide_False by lia. by rewrite Z.rem_small by lia. }
  unfold js_slot. rewrite half_taken_length, decide_True by lia.
  rewrite Nat2Z.id, half_taken_lookup, decide_False by lia.
  unfold Fork.acquire, Fork.acquire_check. cbn [Fork.state Fork.new Fork.id].
  rewrite decide_True by done.
  eexists. rewrite <- (half_taken_step n m Hm). reflexivity.
Qed.

Lemma launch_prefix n count g m :
  0 < count → (m ≤ n)%nat →
  ∃ g',
    launch count
      ((λ i : nat, Philosopher.new (Z.of_nat i) (make_forks n)) <$> seq 0 m)
      {| world := {| table := make_forks n; globals := g |}; tasks := [] |}
    = {| world := {| table := half_taken n m; globals := g' |};
         tasks := (λ i : nat, (Philosopher.new (Z.of_nat i) (make_forks n),
                               Awaiting Settled (Philosopher.AcquiredFirst 0)))
                    <$> seq 0 m |}.
Proof.
  intros Hcount. induction m as [|m IH]; intros Hm.
  - by exists g.
  - destruct IH as [g1 IH]; [lia|].
    rewrite seq_S, !fmap_app. unfold launch in *. rewrite foldl_app, IH.
    destruct (launch_one n m count g1 Hcount) as [g2 Hone]; [lia|].
    cbn [foldl fmap list_fmap world tasks]. simpl "+"%nat.
    rewrite Hone. by exists g2.
Qed.

(** Right after the launch every fork is taken and every call waits. *)
Lemma launched_blocked n count g :
  0 < count →
  ∃ g',
    let sys := {| world := {| table := taken_forks n; globals := g' |};
                  tasks := (λ i : nat,
                              (Philosopher.new (Z.of_nat i) (make_forks n),
                               Awaiting Settled (Philosopher.AcquiredFirst 0)))
                             <$> seq 0 n |} in
    launch count (make_philosophers n (make_forks n))
      {| world := {| table := make_forks n; globals := g |}; tasks := [] |}
      = sys ∧
    Forall (λ fork, Fork.state fork ≠ 0) (table (world sys)) ∧
    Forall (blocked (table (world sys))) (tasks sys).
Proof.
  intros Hcount.
  destruct (launch_prefix n count g n Hcount) as [g' Hlaunch]; [lia|].
  rewrite half_taken_all in Hlaunch.
  exists g'. split; [exact Hlaunch|]. cbn [world table tasks]. split.
  - unfold taken_forks. apply Forall_fmap, Forall_true. by intros i.
  - apply Forall_fmap, Forall_forall. intros i Hi.
    apply elem_of_seq in Hi.
    assert (taken_forks n ≠ []) as Hne.
    { intros Hnil. apply (f_equal length) in Hnil.
      unfold taken_forks in Hnil. rewrite length_fmap, length_seq in Hnil.
      simpl in Hnil. lia. }
    assert (length (make_forks n) = length (taken_forks n)) as Hlen.
    { unfold taken_forks. by rewrite length_make_forks, length_fmap, length_seq. }
    split; [done|].
    cbn [fst Philosopher.f1 Philosopher.f2 Philosopher.new]. rewrite Hlen.
    split; apply js_slot_rem; (done || lia).
Qed.
End Launch.

(** X4.  The naive strategy deadlocks.  When the philosophers 0..n-1 are
    launched one after the other on [n] new forks with a positive meal
    count, the way [main] launches them, each takes its left fork in its
    first turn.  From then on, in whatever order the calls are resumed, the
    forks stay as they are, every call stays suspended before its second
    fork, and (for [n] > 0) the calls never all return. *)
Theorem naive_launch_deadlocks `{Host} (n : nat) (count : Z) (g : Globals)
    (schedule : list nat) :
  0 < count →
  let forks := make_forks n in
  let sys := run_schedule count schedule
               (launch count (make_philosophers n forks)
                  {| world := {| table := forks; globals := g |};
                     tasks := [] |}) in
  table (world sys) = taken_forks n ∧
  fst <$> tasks sys = make_philosophers n forks ∧
  Forall (λ task, before_second task.2 = true) (tasks sys) ∧
  ((0 < n)%nat → ¬ all_returned sys).
Proof.
  intros Hcount forks sys. subst sys forks.
  destruct (launched_blocked n count g Hcount)
    as (g' & Hlaunch & Htaken & Hblocked).
  cbv zeta in Hlaunch. rewrite Hlaunch.
  destruct (run_schedule_blocked count schedule _ Htaken Hblocked)
    as (Htb & Hps & Hfinal).
  cbn [world table tasks] in Htb, Hps, Hfinal.
  rewrite <- list_fmap_compose in Hps.
  set (final := run_schedule count schedule _) in *.
  assert (Forall (λ task, before_second task.2 = true) (tasks final)) as Hwait.
  { eapply Forall_impl; [exact Hfinal|]. by intros task (Hpoint & _). }
  split; [exact Htb|]. split; [exact Hps|]. split; [exact Hwait|].
  intros Hn Hall. unfold all_returned in Hall.
  apply (f_equal length) in Hps.
  rewrite !length_fmap in Hps. rewrite length_seq in Hps.
  destruct (tasks final) as [|task rest]; [simpl in Hps; lia|].
  apply Forall_cons in Hall as [Hret _]. apply Forall_cons in Hwait as [Hw _].
  by rewrite Hret in Hw.
Qed.

Lemma naive_launch_deadlocks_witness :
  let sys := @run_schedule sample_host 10 [0; 1; 2; 3; 4; 4; 0]%nat
               (@launch sample_host 10 (make_philosophers 5 (make_forks 5))
                  {| world := {| table := make_forks 5;
                                 globals := @module_init sample_host |};
                     tasks := [] |}) in
  table (world sys) = taken_forks 5 ∧ ¬ all_returned sys.
Proof.
  intros sys.
  destruct (@naive_launch_deadlocks sample_host 5 10 (@module_init sample_host)
              [0; 1; 2; 3; 4; 4; 0]%nat ltac:(lia))
    as (Htb & _ & _ & Hnever).
  split; [exact Htb|]. apply Hnever. lia.
Defined.


(** ** The command line of run-experiments.js *)



